(** * Degree-of-success resolution and modifier stacking (pf2e)

    A shallow embedding of
    - [src/module/system/check-degree-of-success.ts]: the adjustment selector
      [getDegreeAdjustment] and the outcome resolver [getDegreeOfSuccess];
    - [src/module/system/damage/dialog.ts]: the damage dialog's bookkeeping of
      modifiers ([#originallyEnabled], [getData], the checkbox and
      add-modifier listeners, [#applyStackingRules]).

    JavaScript objects used as lookup tables are finite maps with string keys,
    JavaScript numbers are IEEE binary64 floats, numeric enumerations are
    integers, [undefined] results are [None]. *)

From Stdlib Require Import ZArith Floats.
From stdpp Require Import gmap strings list.

(** ** A fragment of JavaScript values *)

Module JS.

Inductive Value :=
| Undefined
| Null
| Boolean (b : bool)
| Number (n : float)
| String (s : string).

(** A statement either completes normally or throws. The only throw the
    embedded code can perform is the [TypeError] raised by reading a property
    of [undefined]. *)
Inductive Error := TypeError.

Inductive Completion (A : Type) :=
| Returned (a : A)
| Threw (e : Error).
Arguments Returned {A} a.
Arguments Threw {A} e.

(** [x ?? y]: the right operand is taken only for [undefined] and [null]. *)
Definition nullish (x y : Value) : Value :=
  match x with
  | Undefined | Null => y
  | _ => x
  end.

Section ToNumber.
(** The StringToNumber grammar of the language is left abstract: it maps a
    numeric literal to its value and every other string to NaN. *)
Variable StringToNumber : string → float.

(** [Number(v)], the ToNumber conversion. *)
Definition ToNumber (v : Value) : float :=
  match v with
  | Undefined => nan
  | Null => 0%float
  | Boolean true => 1%float
  | Boolean false => 0%float
  | Number n => n
  | String s => StringToNumber s
  end.
End ToNumber.

(** The names that an object literal inherits from [Object.prototype]
    (ECMAScript, Annex B included): indexing such an object with one of them
    yields the inherited member, not [undefined]. *)
Definition Object_prototype_names : list string :=
  ["constructor"; "hasOwnProperty"; "isPrototypeOf"; "propertyIsEnumerable";
   "toLocaleString"; "toString"; "valueOf"; "__proto__";
   "__defineGetter__"; "__defineSetter__"; "__lookupGetter__"; "__lookupSetter__"].

End JS.

(** ** Enumerations imported from [degree-of-success.ts] *)

Module DegreeOfSuccess.
(** Modelled from the spec: the enumeration is declared in
    [degree-of-success.ts], which is not part of the sources at hand. The
    four tiers are consecutive integers 0..3, ordered
    CRITICAL_FAILURE < FAILURE < SUCCESS < CRITICAL_SUCCESS. *)
Definition CRITICAL_FAILURE : Z := 0.
(** Modelled from the spec: the second tier of the enumeration. *)
Definition FAILURE : Z := 1.
(** Modelled from the spec: the third tier of the enumeration. *)
Definition SUCCESS : Z := 2.
(** Modelled from the spec: the fourth tier of the enumeration. *)
Definition CRITICAL_SUCCESS : Z := 3.

(** Modelled from the spec: the valid range of the enumeration,
    CRITICAL_FAILURE..CRITICAL_SUCCESS. *)
Definition in_range (d : Z) : Prop := (CRITICAL_FAILURE ≤ d ≤ CRITICAL_SUCCESS)%Z.

#[global] Instance in_range_dec d : Decision (in_range d).
Proof. unfold in_range. apply _. Defined.
End DegreeOfSuccess.

Module DegreeAdjustment.
(** Modelled from the spec: the four members of the [DegreeAdjustment]
    enumeration of [degree-of-success.ts]. The selector only compares them
    with [===], so they are kept symbolic; their step counts are [steps]. *)
Inductive DegreeAdjustmentValues :=
| LOWER_BY_TWO
| LOWER
| INCREASE
| INCREASE_BY_TWO.

#[global] Instance eq_dec : EqDecision DegreeAdjustmentValues.
Proof. solve_decision. Defined.

(** Modelled from the spec: the signed step count of an adjustment,
    LOWER_BY_TWO(-2), LOWER(-1), INCREASE(+1), INCREASE_BY_TWO(+2). *)
Definition steps (a : DegreeAdjustmentValues) : Z :=
  match a with
  | LOWER_BY_TWO => -2
  | LOWER => -1
  | INCREASE => 1
  | INCREASE_BY_TWO => 2
  end.
End DegreeAdjustment.

Export DegreeAdjustment(DegreeAdjustmentValues).

(** Modelled from the spec: [adjustDegreeOfSuccess] of [degree-of-success.ts]
    is not part of the sources at hand. Shifting a degree is integer addition
    of the step count, clamped to the bounds of the enumeration. *)
Definition adjustDegreeOfSuccess (adjustment : DegreeAdjustmentValues) (degreeOfSuccess : Z) : Z :=
  (DegreeOfSuccess.CRITICAL_FAILURE
     `max` (DegreeOfSuccess.CRITICAL_SUCCESS
              `min` (degreeOfSuccess + DegreeAdjustment.steps adjustment)))%Z.

(** ** [check-degree-of-success.ts] *)

Module CheckDegree.

(** [CheckDCModifiers]: an object read with [modifiers[degree]]. The type
    restricts its values to the four direction strings; at run time any
    string can sit there. *)
Abbreviation CheckDCModifiers := (gmap string string).

Record CheckDC := {
  label : option string;
  modifiers : option CheckDCModifiers;
  scope : option string;
  value : JS.Value;
  visibility : option string;
}.

Record DieRoll := {
  dieValue : JS.Value;
  modifier : JS.Value;
}.

(** The parts of a Foundry [Roll] that the resolver reads:
    [roll.terms[i].total] and [roll.data.totalModifier]. *)
Record Roll := {
  terms : list JS.Value;
  totalModifier : JS.Value;
}.

Definition PREFIXES : gmap string Z :=
  {[ "all" := (-1)%Z;
     "criticalFailure" := DegreeOfSuccess.CRITICAL_FAILURE;
     "failure" := DegreeOfSuccess.FAILURE;
     "success" := DegreeOfSuccess.SUCCESS;
     "criticalSuccess" := DegreeOfSuccess.CRITICAL_SUCCESS ]}.

(** Reading [ADJUSTMENTS[s]] yields [undefined] for a string that is not one
    of the four keys of the table (the names that every object inherits,
    such as [constructor], are not direction strings of any rule source and
    are left out of the model). *)
Definition ADJUSTMENTS : gmap string DegreeAdjustmentValues :=
  {[ "two-degrees-better" := DegreeAdjustment.INCREASE_BY_TWO;
     "one-degree-better" := DegreeAdjustment.INCREASE;
     "one-degree-worse" := DegreeAdjustment.LOWER;
     "two-degrees-worse" := DegreeAdjustment.LOWER_BY_TWO ]}.

Definition DegreeOfSuccessText : list string :=
  ["criticalFailure"; "failure"; "success"; "criticalSuccess"].

(** The array the [for ... of] loop of [getDegreeAdjustment] runs over. *)
Definition degrees : list string :=
  ["all"; "criticalFailure"; "failure"; "success"; "criticalSuccess"].

(** The strings that the loop can read from [modifiers] are none of the
    names that [ADJUSTMENTS] inherits. For such an object, [ADJUSTMENTS[s]]
    is the lookup among the four keys of the table; for one of the inherited
    names the code reads a member of [Object.prototype], which the table
    below does not describe. *)
Definition plain_directions (modifiers : gmap string string) : bool :=
  forallb (λ degree,
             match modifiers !! degree with
             | Some checkDC => negb (bool_decide (checkDC ∈ JS.Object_prototype_names))
             | None => true
             end) degrees.

(** The condition of the [if] inside the loop body. *)
Definition guard (value : Z) (adjustment : option DegreeAdjustmentValues) : bool :=
  negb (bool_decide (value = DegreeOfSuccess.CRITICAL_SUCCESS)
        && bool_decide (adjustment = Some DegreeAdjustment.INCREASE))
  && negb (bool_decide (value = DegreeOfSuccess.CRITICAL_FAILURE)
           && bool_decide (adjustment = Some DegreeAdjustment.LOWER)).

(** The loop of [getDegreeAdjustment], by recursion on the keys still to be
    visited. [continue] and falling out of the [if]s go to the next key;
    [return adjustment] ends the loop, also when [adjustment] is
    [undefined]; leaving the loop returns [undefined]. *)
Fixpoint getDegreeAdjustment_from (value : Z) (modifiers : CheckDCModifiers)
    (todo : list string) : option DegreeAdjustmentValues :=
  match todo with
  | [] => None
  | degree :: todo' =>
      match modifiers !! degree with
      | None => getDegreeAdjustment_from value modifiers todo'
      | Some checkDC =>
          if bool_decide (checkDC = "") then getDegreeAdjustment_from value modifiers todo'
          else
            let condition := PREFIXES !! degree in
            let adjustment := ADJUSTMENTS !! checkDC in
            if guard value adjustment then
              if bool_decide (condition = PREFIXES !! "all") then adjustment
              else if bool_decide (Some value = condition) then adjustment
              else getDegreeAdjustment_from value modifiers todo'
            else getDegreeAdjustment_from value modifiers todo'
      end
  end.

Definition getDegreeAdjustment (value : Z) (modifiers : CheckDCModifiers)
    : option DegreeAdjustmentValues :=
  getDegreeAdjustment_from value modifiers degrees.

(** The object returned by [getDegreeOfSuccess]. *)
Module Outcome.
Record t := {
  unadjusted : Z;
  value : Z;
  degreeAdjustment : option DegreeAdjustmentValues;
}.
End Outcome.

Section Resolver.
Variable StringToNumber : string → float.
(** [calculateDegreeOfSuccess] of [degree-of-success.ts] is not part of the
    sources at hand; the resolver is embedded over any such function. *)
Variable calculateDegreeOfSuccess : DieRoll → JS.Value → Z.

(** The initialiser of [dieRoll.dieValue], as a function of
    [roll.terms[0].total]. *)
Definition dieValue_of (total : JS.Value) : JS.Value :=
  JS.nullish (JS.Number (JS.ToNumber StringToNumber total)) (JS.Number 0%float).

(** [getDegreeOfSuccess]. Reading [.total] of a missing first term throws. *)
Definition getDegreeOfSuccess (roll : Roll) (checkDC : CheckDC) : JS.Completion Outcome.t :=
  match terms roll !! 0%nat with
  | None => JS.Threw JS.TypeError
  | Some total =>
      let dieRoll :=
        {| dieValue := dieValue_of total;
           modifier := JS.nullish (totalModifier roll) (JS.Number 0%float) |} in
      let unadjusted := calculateDegreeOfSuccess dieRoll (value checkDC) in
      let value := unadjusted in
      let degreeAdjustment := getDegreeAdjustment value (default ∅ (modifiers checkDC)) in
      let value :=
        match degreeAdjustment with
        | Some adjustment => adjustDegreeOfSuccess adjustment value
        | None => value
        end in
      JS.Returned
        {| Outcome.unadjusted := unadjusted;
           Outcome.value := value;
           Outcome.degreeAdjustment := degreeAdjustment |}
  end.
End Resolver.

End CheckDegree.

(** ** Modifiers and the stacking resolver ([@actor/modifiers.ts]) *)

Module Modifiers.

(** Modelled from the spec: the kind tag of a modifier,
    bonus | penalty | untyped. *)
Inductive Kind := bonus | penalty | untyped.

#[global] Instance Kind_eq_dec : EqDecision Kind.
Proof. solve_decision. Defined.

(** Modelled from the spec: the class [ModifierPF2e] is declared in
    [@actor/modifiers.ts], which is not part of the sources at hand. The
    fields are those the dialog reads ([label], [category], [type],
    [modifier], [hideIfDisabled], [damageType], [damageCategory], [enabled],
    [ignored], [critical]) together with the [kind] tag of the spec's data
    model; [type] is the spec's subtype, [ignored] its [ignoredByUser],
    [category] its partition key. Modifier values are integers. *)
Record ModifierPF2e := {
  label : string;
  modifier : Z;
  kind : Kind;
  type : option string;
  enabled : bool;
  ignored : bool;
  critical : option bool;
  hideIfDisabled : bool;
  damageType : option string;
  damageCategory : option string;
  category : option string;
}.

(** Modelled from the spec: the assignment [m.enabled = b], the resolver's
    one side effect. *)
Definition set_enabled (b : bool) (m : ModifierPF2e) : ModifierPF2e :=
  {| label := label m; modifier := modifier m; kind := kind m; type := type m;
     enabled := b;
     ignored := ignored m; critical := critical m; hideIfDisabled := hideIfDisabled m;
     damageType := damageType m; damageCategory := damageCategory m;
     category := category m |}.

(** The assignment [m.ignored = b]. *)
Definition set_ignored (b : bool) (m : ModifierPF2e) : ModifierPF2e :=
  {| label := label m; modifier := modifier m; kind := kind m; type := type m;
     enabled := enabled m;
     ignored := b;
     critical := critical m; hideIfDisabled := hideIfDisabled m;
     damageType := damageType m; damageCategory := damageCategory m;
     category := category m |}.

(** Modelled from the spec: "only [enabled] flags are mutated". Two states
    of one object that differ at most in [enabled]. *)
Definition enabled_only (before after : ModifierPF2e) : Prop :=
  after = set_enabled (enabled after) before.

(** Modelled from the spec: a stacking group is a (kind, subtype) pair with
    kind bonus or penalty. *)
Definition in_group (k : Kind) (t : option string) (m : ModifierPF2e) : Prop :=
  kind m = k ∧ type m = t.

#[global] Instance in_group_dec k t m : Decision (in_group k t m).
Proof. unfold in_group. apply _. Defined.

(** Modelled from the spec: what "best" ranks by. The best bonus has the
    highest value, the best penalty the most negative one. *)
Definition score (k : Kind) (v : Z) : Z :=
  match k with
  | penalty => (- v)%Z
  | _ => v
  end.

(** Modelled from the spec: [x] takes part in the ranking of the group of
    [m]: it is in the same group and not ignored by the user. *)
Definition rival (m x : ModifierPF2e) : bool :=
  negb (ignored x) && bool_decide (in_group (kind m) (type m) x).

(** Modelled from the spec: the value of [enabled] that the resolver gives
    to [m], which stands between the modifiers [earlier] and [later] of the
    list. An ignored modifier is disabled, an untyped one stacks, and in a
    group the first modifier with the best value wins: every earlier rival
    is strictly worse and no later rival is strictly better. *)
Definition stacks (earlier later : list ModifierPF2e) (m : ModifierPF2e) : bool :=
  negb (ignored m)
  && match kind m with
     | untyped => true
     | k =>
         forallb (λ x, negb (rival m x)
                       || bool_decide (score k (modifier x) < score k (modifier m))%Z) earlier
         && forallb (λ x, negb (rival m x)
                          || bool_decide (score k (modifier x) ≤ score k (modifier m))%Z) later
     end.

(** Modelled from the spec: the resolver's pass over the list, with the
    modifiers already passed in [earlier]. *)
Fixpoint applyStackingRules_from (earlier rest : list ModifierPF2e) : list ModifierPF2e :=
  match rest with
  | [] => []
  | m :: later =>
      set_enabled (stacks earlier later m) m :: applyStackingRules_from (earlier ++ [m]) later
  end.

(** Modelled from the spec: [applyStackingRules] of [@actor/modifiers.ts] is
    not part of the sources at hand. It mutates the [enabled] flag of the
    objects of the array it is given; the function maps their states before
    the call to their states after it, in the order of the array. *)
Definition applyStackingRules (modifiers : list ModifierPF2e) : list ModifierPF2e :=
  applyStackingRules_from [] modifiers.

End Modifiers.

Export Modifiers(ModifierPF2e).

(** ** [damage/dialog.ts] *)

Module DamageDice.
(** Modelled from the spec: the fields of [DamageDicePF2e]
    ([@actor/modifiers.ts]) that the dialog's listeners write. *)
Record DamageDicePF2e := {
  label : string;
  enabled : bool;
  ignored : bool;
}.
End DamageDice.

Export DamageDice(DamageDicePF2e).

Module DamageDialog.
Import Modifiers.

(** An entry of [modifiers] in the object returned by [getData]. The
    rendered [typeLabel] and [icon] strings are left out. *)
Module ModifierData.
Record t := {
  label : string;
  category : option string;
  type : option string;
  modifier : Z;
  hideIfDisabled : bool;
  damageType : option string;
  enabled : bool;
  ignored : bool;
  critical : option bool;
  show : bool;
}.
End ModifierData.

(** [params] of the constructor: [formulaData.modifiers], [formulaData.dice]
    and [context.outcome]. *)
Record DamageDialogParams := {
  formula_modifiers : list ModifierPF2e;
  formula_dice : list DamageDicePF2e;
  outcome : option string;
}.

(** The state of a [DamageModifierDialog]. The array [formulaData.modifiers]
    is the store of the modifier objects: the dialog only mutates its entries
    in place and pushes new ones, so an object is identified by its index,
    and [#originallyEnabled], a set of objects, is a set of indices. *)
Record DamageModifierDialog := {
  modifiers : list ModifierPF2e;
  dice : list DamageDicePF2e;
  isCritical : bool;
  isRolled : bool;
  originallyEnabled : gset nat;
}.

(** [new Set(modifiers.filter((m) => m.enabled))] *)
Definition enabled_set (ms : list ModifierPF2e) : gset nat :=
  list_to_set (fst <$> filter (λ im, Modifiers.enabled im.2 = true) (imap pair ms)).

Definition constructor (params : DamageDialogParams) : DamageModifierDialog :=
  {| modifiers := formula_modifiers params;
     dice := formula_dice params;
     isCritical := bool_decide (outcome params = Some "criticalSuccess");
     isRolled := false;
     originallyEnabled := enabled_set (formula_modifiers params) |}.

(** The [modifiers] of [getData]. *)
Definition getData (this : DamageModifierDialog) : list ModifierData.t :=
  imap (λ i m,
    {| ModifierData.label := Modifiers.label m;
       ModifierData.category := Modifiers.category m;
       ModifierData.type := Modifiers.type m;
       ModifierData.modifier := Modifiers.modifier m;
       ModifierData.hideIfDisabled :=
         negb (bool_decide (i ∈ originallyEnabled this)) && Modifiers.hideIfDisabled m;
       ModifierData.damageType := Modifiers.damageType m;
       ModifierData.enabled := Modifiers.enabled m;
       ModifierData.ignored := Modifiers.ignored m;
       ModifierData.critical := Modifiers.critical m;
       ModifierData.show := isCritical this || negb (default false (Modifiers.critical m)) |})
    (modifiers this).

Definition persistent (m : ModifierPF2e) : Prop := Modifiers.category m = Some "persistent".

#[global] Instance persistent_dec m : Decision (persistent m).
Proof. unfold persistent. apply _. Defined.

(** [store.filter(P)] is a new array of the same objects, so what a callee
    does to its entries shows in [store]: the objects of [store] that
    satisfy [P] take, in order, the states [after]. *)
Fixpoint write_back {A} (P : A → Prop) `{!∀ x, Decision (P x)} (store after : list A) : list A :=
  match store with
  | [] => []
  | m :: store' =>
      if decide (P m) then
        match after with
        | m' :: after' => m' :: write_back P store' after'
        | [] => m :: store'
        end
      else m :: write_back P store' after
  end.

Section Listeners.
(** The imported [applyStackingRules], as the function from the states of
    the objects of its argument before the call to their states after it. *)
Variable applyStackingRules : list ModifierPF2e → list ModifierPF2e.

(** [#applyStackingRules] *)
Definition private_applyStackingRules (ms : list ModifierPF2e) : list ModifierPF2e :=
  let ms1 :=
    write_back (λ m, ¬ persistent m) ms (applyStackingRules (filter (λ m, ¬ persistent m) ms)) in
  write_back persistent ms1 (applyStackingRules (filter persistent ms1)).

(** The events that the listeners of [activateListeners] react to, with the
    data they read from the page: the [data-modifier-index] and
    [data-dice-index] of a checkbox ([None] where [Number] yields NaN) and
    its [checked] state; the objects that the add-modifier and add-dice
    forms construct. *)
Inductive Event :=
| CheckboxClick (modIndex dieIndex : option nat) (checked : bool)
| AddModifierClick (m : ModifierPF2e)
| AddDiceClick (d : DamageDicePF2e)
| RollClick.

Definition with_modifiers (ms : list ModifierPF2e) (this : DamageModifierDialog) :=
  {| modifiers := ms; dice := dice this; isCritical := isCritical this;
     isRolled := isRolled this; originallyEnabled := originallyEnabled this |}.

Definition with_dice (ds : list DamageDicePF2e) (this : DamageModifierDialog) :=
  {| modifiers := modifiers this; dice := ds; isCritical := isCritical this;
     isRolled := isRolled this; originallyEnabled := originallyEnabled this |}.

(** The click listener of a checkbox. Writing a property of an entry that
    the array does not have throws. *)
Definition onCheckboxClick (modIndex dieIndex : option nat) (checked : bool)
    (this : DamageModifierDialog) : JS.Completion DamageModifierDialog :=
  match modIndex, dieIndex with
  | Some i, _ =>
      match modifiers this !! i with
      | Some m =>
          let ms := <[i := set_ignored (negb checked) m]> (modifiers this) in
          JS.Returned (with_modifiers (private_applyStackingRules ms) this)
      | None => JS.Threw JS.TypeError
      end
  | None, Some j =>
      match dice this !! j with
      | Some d =>
          let d' := {| DamageDice.label := DamageDice.label d;
                       DamageDice.ignored := negb checked;
                       DamageDice.enabled := checked |} in
          JS.Returned (with_dice (<[j := d']> (dice this)) this)
      | None => JS.Threw JS.TypeError
      end
  | None, None => JS.Returned this
  end.

(** The click listener of the add-modifier button, with the object [m] that
    [new ModifierPF2e] builds from the form (whose type menu offers the
    modifier types only): a value of zero is reported as an error and
    nothing is pushed. *)
Definition onAddModifierClick (m : ModifierPF2e) (this : DamageModifierDialog)
    : JS.Completion DamageModifierDialog :=
  if bool_decide (Modifiers.modifier m = 0%Z) then JS.Returned this
  else JS.Returned (with_modifiers (private_applyStackingRules (modifiers this ++ [m])) this).

Definition onAddDiceClick (d : DamageDicePF2e) (this : DamageModifierDialog)
    : JS.Completion DamageModifierDialog :=
  JS.Returned (with_dice (dice this ++ [d]) this).

Definition onRollClick (this : DamageModifierDialog) : JS.Completion DamageModifierDialog :=
  JS.Returned
    {| modifiers := modifiers this; dice := dice this; isCritical := isCritical this;
       isRolled := true; originallyEnabled := originallyEnabled this |}.

(** One event: the dialog after its listener ran. A listener that throws
    leaves the dialog as it was. *)
Definition dispatch (this : DamageModifierDialog) (ev : Event) : DamageModifierDialog :=
  let completion :=
    match ev with
    | CheckboxClick modIndex dieIndex checked => onCheckboxClick modIndex dieIndex checked this
    | AddModifierClick m => onAddModifierClick m this
    | AddDiceClick d => onAddDiceClick d this
    | RollClick => onRollClick this
    end in
  match completion with
  | JS.Returned this' => this'
  | JS.Threw _ => this
  end.

(** The dialog after a sequence of events. *)
Definition run (this : DamageModifierDialog) (events : list Event) : DamageModifierDialog :=
  foldl dispatch this events.

End Listeners.

End DamageDialog.

(** ** Sample inputs *)

Module Scenarios.
Import Modifiers.

(** A modifier as the upstream assembly hands it over: enabled, visible. *)
Definition sample (label : string) (value : Z) (kind : Kind) (type : option string)
    (ignored : bool) (category : option string) : ModifierPF2e :=
  {| label := label; modifier := value; kind := kind; type := type;
     enabled := true; ignored := ignored; critical := None; hideIfDisabled := true;
     damageType := None; damageCategory := category; category := category |}.

(** Two circumstance bonuses, +2 and +4. *)
Definition two_circumstance_bonuses : list ModifierPF2e :=
  [sample "a" 2 bonus (Some "circumstance") false None;
   sample "b" 4 bonus (Some "circumstance") false None].

(** A circumstance bonus +3 that the user ignored, and one of +2. *)
Definition ignored_best : list ModifierPF2e :=
  [sample "a" 3 bonus (Some "circumstance") true None;
   sample "b" 2 bonus (Some "circumstance") false None].

(** A persistent circumstance bonus +4 and an ordinary one of +2. *)
Definition two_partitions : list ModifierPF2e :=
  [sample "a" 4 bonus (Some "circumstance") false (Some "persistent");
   sample "b" 2 bonus (Some "circumstance") false None].

End Scenarios.

(** ** The selection rule in the words of the spec *)

Module SelectionRule.
Import CheckDegree.

(** The fixed priority order of the five selector keys. *)
Definition priority : list string :=
  ["all"; "criticalFailure"; "failure"; "success"; "criticalSuccess"].

(** A key is present when the map holds a direction string for it (an empty
    string counts as none). *)
Definition direction (modifiers : CheckDCModifiers) (key : string) : option string :=
  s ← modifiers !! key; if bool_decide (s = "") then None else Some s.

(** The adjustment that the direction string of a key resolves to. *)
Definition resolved (modifiers : CheckDCModifiers) (key : string) : option DegreeAdjustmentValues :=
  direction modifiers key ≫= λ s, ADJUSTMENTS !! s.

(** The boundary guard: INCREASE at CRITICAL_SUCCESS and LOWER at
    CRITICAL_FAILURE are skipped. *)
Definition skipped (unadjusted : Z) (adjustment : option DegreeAdjustmentValues) : Prop :=
  (unadjusted = DegreeOfSuccess.CRITICAL_SUCCESS ∧ adjustment = Some DegreeAdjustment.INCREASE)
  ∨ (unadjusted = DegreeOfSuccess.CRITICAL_FAILURE ∧ adjustment = Some DegreeAdjustment.LOWER).

(** The key [all] matches unconditionally, any other key when it names the
    unadjusted degree. *)
Definition matches (key : string) (unadjusted : Z) : Prop :=
  key = "all" ∨ ((0 ≤ unadjusted)%Z ∧ DegreeOfSuccessText !! Z.to_nat unadjusted = Some key).

(** A candidate: present, not skipped by the boundary guard, matching. *)
Definition candidate (unadjusted : Z) (modifiers : CheckDCModifiers) (key : string) : Prop :=
  is_Some (direction modifiers key)
  ∧ ¬ skipped unadjusted (resolved modifiers key)
  ∧ matches key unadjusted.

#[global] Instance skipped_dec v a : Decision (skipped v a).
Proof. unfold skipped. apply _. Defined.

#[global] Instance matches_dec key v : Decision (matches key v).
Proof. unfold matches. apply _. Defined.

#[global] Instance candidate_dec v m key : Decision (candidate v m key).
Proof. unfold candidate. apply _. Defined.

(** The first candidate in priority order, and its adjustment. *)
Definition selected_key (unadjusted : Z) (modifiers : CheckDCModifiers) : option string :=
  head (filter (candidate unadjusted modifiers) priority).

Definition selected (unadjusted : Z) (modifiers : CheckDCModifiers)
    : option DegreeAdjustmentValues :=
  selected_key unadjusted modifiers ≫= resolved modifiers.

End SelectionRule.

(** * Properties of the outcome resolver *)

Module CheckDegreeFacts.
Import CheckDegree SelectionRule.

Lemma guard_skipped v a : guard v a = true ↔ ¬ skipped v a.
Proof.
  unfold guard, skipped.
  rewrite andb_true_iff, !negb_true_iff, !andb_false_iff, !bool_decide_eq_false.
  destruct (decide (v = DegreeOfSuccess.CRITICAL_SUCCESS)),
    (decide (v = DegreeOfSuccess.CRITICAL_FAILURE)),
    (decide (a = Some DegreeAdjustment.INCREASE)),
    (decide (a = Some DegreeAdjustment.LOWER)); tauto.
Qed.

Lemma text_lookup n key :
  DegreeOfSuccessText !! n = Some key ↔
  (n = 0%nat ∧ key = "criticalFailure") ∨ (n = 1%nat ∧ key = "failure")
  ∨ (n = 2%nat ∧ key = "success") ∨ (n = 3%nat ∧ key = "criticalSuccess").
Proof.
  unfold DegreeOfSuccessText.
  do 4 (destruct n as [|n]; [simpl; split; [intros [= <-]; tauto | intros H; f_equal; intuition congruence]|]).
  simpl. split; [discriminate | intuition congruence].
Qed.

(** On the keys of the loop, the two tests against [PREFIXES] decide
    whether the key matches. *)
Lemma prefix_matches v key :
  key ∈ degrees →
  (PREFIXES !! key = PREFIXES !! "all" ∨ Some v = PREFIXES !! key) ↔ matches key v.
Proof.
  unfold degrees, matches. rewrite !elem_of_cons, elem_of_nil, text_lookup.
  intros [->|[->|[->|[->|[->|[]]]]]]; vm_compute (PREFIXES !! _);
    split; intros H; try (left; reflexivity).
  all: try (destruct H as [H|H]; [discriminate H|]; injection H as ->;
            right; split; [lia|]; simpl; tauto).
  all: destruct H as [H|[Hv H]]; [discriminate H|]; right; f_equal;
    destruct H as [[? H]|[[? H]|[[? H]|[? H]]]]; try discriminate H; lia.
Qed.

Lemma direction_Some m key s :
  direction m key = Some s ↔ m !! key = Some s ∧ s ≠ "".
Proof.
  unfold direction. destruct (m !! key) as [s'|]; simpl.
  - case_bool_decide; split; try discriminate.
    + intros [[= ->] ?]. contradiction.
    + intros [= ->]. tauto.
    + intros [[= ->] ?]. reflexivity.
  - split; [discriminate|]. intros [? _]. discriminate.
Qed.

(** What the loop body tests at a key, in terms of [candidate]. *)
Lemma candidate_iff v m key :
  key ∈ degrees →
  candidate v m key ↔
  ∃ s, m !! key = Some s ∧ s ≠ "" ∧ guard v (ADJUSTMENTS !! s) = true
       ∧ (PREFIXES !! key = PREFIXES !! "all" ∨ Some v = PREFIXES !! key).
Proof.
  intros Hkey. unfold candidate, resolved. rewrite <- (prefix_matches v key Hkey). split.
  - intros ([s Hs] & Hskip & Hmatch). exists s. rewrite Hs in Hskip. simpl in Hskip.
    apply direction_Some in Hs as [Hs Hne]. rewrite guard_skipped. tauto.
  - intros (s & Hs & Hne & Hguard & Hmatch).
    assert (direction m key = Some s) as Hd by (apply direction_Some; tauto).
    rewrite Hd. simpl. rewrite <- guard_skipped. eauto.
Qed.

(** The loop computes the adjustment of the first candidate among the keys
    it still has to visit. *)
Lemma getDegreeAdjustment_from_first v m todo :
  todo ⊆ degrees →
  getDegreeAdjustment_from v m todo = head (filter (candidate v m) todo) ≫= resolved m.
Proof.
  induction todo as [|key todo IH]; intros Hsub; [reflexivity|].
  assert (key ∈ degrees) as Hkey by (apply Hsub; left).
  assert (todo ⊆ degrees) as Htodo by (intros k Hk; apply Hsub; right; exact Hk).
  specialize (IH Htodo). rewrite filter_cons.
  pose proof (candidate_iff v m key Hkey) as Hc.
  destruct (decide (candidate v m key)) as [Hyes|Hno]; simpl.
  - apply Hc in Hyes as (s & Hs & Hne & Hguard & Hmatch).
    assert (resolved m key = ADJUSTMENTS !! s) as ->.
    { unfold resolved. rewrite (proj2 (direction_Some m key s)) by tauto. reflexivity. }
    rewrite Hs, bool_decide_eq_false_2, Hguard by exact Hne.
    repeat case_bool_decide; tauto.
  - rewrite <- IH. destruct (m !! key) as [s|] eqn:Hs; [|reflexivity].
    case_bool_decide as Hne; [reflexivity|].
    destruct (guard v (ADJUSTMENTS !! s)) eqn:Hguard; [|reflexivity].
    repeat case_bool_decide; try reflexivity; exfalso; apply Hno, Hc; eauto 10.
Qed.

Lemma getDegreeAdjustment_selected v m : getDegreeAdjustment v m = selected v m.
Proof. apply getDegreeAdjustment_from_first. reflexivity. Qed.


(** [head (filter P l)] is the first element of [l] that satisfies [P]. *)
Lemma head_filter_Some {A} (P : A → Prop) `{!∀ x, Decision (P x)} (l : list A) x :
  head (filter P l) = Some x ↔
  ∃ l1 l2, l = l1 ++ x :: l2 ∧ P x ∧ Forall (λ y, ¬ P y) l1.
Proof.
  induction l as [|y l IH]; simpl.
  - split; [discriminate|]. intros (l1 & l2 & Hl & _). destruct l1; discriminate.
  - rewrite filter_cons. destruct (decide (P y)) as [Hy|Hy]; simpl.
    + split.
      * intros [= ->]. exists [], l. auto.
      * intros ([|z l1] & l2 & Hl & Hx & Hall); simpl in Hl; injection Hl as -> ->;
          [reflexivity|]. apply Forall_cons in Hall as [Hz _]. contradiction.
    + rewrite IH. split.
      * intros (l1 & l2 & -> & Hx & Hall). exists (y :: l1), l2. auto.
      * intros ([|z l1] & l2 & Hl & Hx & Hall); simpl in Hl; injection Hl as -> ->;
          [contradiction|]. apply Forall_cons in Hall as [_ Hall]. eauto.
Qed.

Lemma head_filter_None {A} (P : A → Prop) `{!∀ x, Decision (P x)} (l : list A) :
  head (filter P l) = None ↔ Forall (λ y, ¬ P y) l.
Proof.
  induction l as [|y l IH]; simpl; [split; auto|].
  rewrite filter_cons, Forall_cons. destruct (decide (P y)); simpl.
  - split; [discriminate|tauto].
  - rewrite IH. tauto.
Qed.

(** What [getDegreeOfSuccess] returns when the roll has a first term. *)
Lemma getDegreeOfSuccess_Returned S calc roll dc r :
  getDegreeOfSuccess S calc roll dc = JS.Returned r →
  Outcome.degreeAdjustment r
    = getDegreeAdjustment (Outcome.unadjusted r) (default ∅ (modifiers dc))
  ∧ Outcome.value r
    = match Outcome.degreeAdjustment r with
      | Some a => adjustDegreeOfSuccess a (Outcome.unadjusted r)
      | None => Outcome.unadjusted r
      end.
Proof.
  unfold getDegreeOfSuccess. destruct (terms roll !! 0%nat); [|discriminate].
  intros [= <-]. simpl. auto.
Qed.

Lemma getDegreeOfSuccess_total S calc roll dc :
  terms roll ≠ [] → ∃ r, getDegreeOfSuccess S calc roll dc = JS.Returned r.
Proof.
  unfold getDegreeOfSuccess. destruct (terms roll) as [|t ts]; [contradiction|].
  simpl. eauto.
Qed.

(** An adjustment that the loop returns passed the guard. *)
Lemma getDegreeAdjustment_from_guard v m todo a :
  getDegreeAdjustment_from v m todo = Some a → guard v (Some a) = true.
Proof.
  induction todo as [|key todo IH]; simpl; [discriminate|].
  destruct (m !! key) as [s|]; [|exact IH].
  case_bool_decide; [exact IH|].
  destruct (guard v (ADJUSTMENTS !! s)) eqn:Hguard; [|exact IH].
  repeat case_bool_decide; try exact IH; intros Ha; rewrite Ha in Hguard; exact Hguard.
Qed.

(** At the key [all], a direction string whose adjustment passes the guard
    ends the selection. *)
Lemma getDegreeAdjustment_all v m s :
  m !! "all" = Some s → s ≠ "" → guard v (ADJUSTMENTS !! s) = true →
  getDegreeAdjustment v m = ADJUSTMENTS !! s.
Proof.
  intros Hs Hne Hguard. unfold getDegreeAdjustment, degrees. simpl.
  rewrite Hs, bool_decide_eq_false_2, Hguard by exact Hne. reflexivity.
Qed.

(** A candidate that the guard rejects is passed over. *)
Lemma getDegreeAdjustment_from_skip v m key todo s :
  m !! key = Some s → guard v (ADJUSTMENTS !! s) = false →
  getDegreeAdjustment_from v m (key :: todo) = getDegreeAdjustment_from v m todo.
Proof.
  intros Hs Hguard. simpl. rewrite Hs, Hguard. case_bool_decide; reflexivity.
Qed.

(** C1: at most one adjustment is selected per resolution, and it is the
    adjustment of the first key, in the order all, criticalFailure, failure,
    success, criticalSuccess, that is present, not skipped by the boundary
    guard and matching (all matches always, another key when it names the
    unadjusted degree); when no key is selected the final degree is the
    unadjusted one. *)
Theorem first_candidate_wins :
  (∀ v m, getDegreeAdjustment v m = selected_key v m ≫= resolved m)
  ∧ (∀ v m key,
       selected_key v m = Some key ↔
       ∃ before after, priority = before ++ key :: after
         ∧ candidate v m key ∧ Forall (λ k, ¬ candidate v m k) before)
  ∧ (∀ v m, selected_key v m = None → getDegreeAdjustment v m = None)
  ∧ (∀ S calc roll dc r,
       getDegreeOfSuccess S calc roll dc = JS.Returned r →
       Outcome.degreeAdjustment r
         = selected_key (Outcome.unadjusted r) (default ∅ (modifiers dc))
             ≫= resolved (default ∅ (modifiers dc))
       ∧ Outcome.value r
         = match Outcome.degreeAdjustment r with
           | Some a => adjustDegreeOfSuccess a (Outcome.unadjusted r)
           | None => Outcome.unadjusted r
           end).
Proof.
  split; [exact getDegreeAdjustment_selected|].
  split; [intros v m key; apply head_filter_Some|].
  split.
  - intros v m Hnone. rewrite getDegreeAdjustment_selected. unfold selected.
    rewrite Hnone. reflexivity.
  - intros S calc roll dc r Hr.
    apply getDegreeOfSuccess_Returned in Hr as [Hadj Hval].
    rewrite getDegreeAdjustment_selected in Hadj. auto.
Qed.

Lemma first_candidate_wins_witness :
  Some DegreeAdjustment.INCREASE
    = selected_key 1 {[ "failure" := "one-degree-better" ]}
        ≫= resolved {[ "failure" := "one-degree-better" ]}
  ∧ 2%Z = adjustDegreeOfSuccess DegreeAdjustment.INCREASE 1.
Proof.
  refine (proj2 (proj2 (proj2 first_candidate_wins))
            (λ _, nan) (λ _ _, DegreeOfSuccess.FAILURE)
            {| terms := [JS.Number 12%float]; totalModifier := JS.Undefined |}
            {| label := None; modifiers := Some {[ "failure" := "one-degree-better" ]};
               scope := None; value := JS.Number 15%float; visibility := None |}
            {| Outcome.unadjusted := 1; Outcome.value := 2;
               Outcome.degreeAdjustment := Some DegreeAdjustment.INCREASE |} _).
  vm_compute. reflexivity.
Defined.

(** C2: the selector never returns INCREASE at CRITICAL_SUCCESS nor LOWER at
    CRITICAL_FAILURE; INCREASE_BY_TWO and LOWER_BY_TWO are still returned in
    those states; and a candidate that the guard rejects does not end the
    loop, so a key of lower priority can still be selected. *)
Theorem boundary_guard_blocks_single_steps_only :
  (∀ m, getDegreeAdjustment DegreeOfSuccess.CRITICAL_SUCCESS m ≠ Some DegreeAdjustment.INCREASE)
  ∧ (∀ m, getDegreeAdjustment DegreeOfSuccess.CRITICAL_FAILURE m ≠ Some DegreeAdjustment.LOWER)
  ∧ (∀ m s, m !! "all" = Some s →
       ADJUSTMENTS !! s = Some DegreeAdjustment.INCREASE_BY_TWO →
       getDegreeAdjustment DegreeOfSuccess.CRITICAL_SUCCESS m
         = Some DegreeAdjustment.INCREASE_BY_TWO)
  ∧ (∀ m s, m !! "all" = Some s →
       ADJUSTMENTS !! s = Some DegreeAdjustment.LOWER_BY_TWO →
       getDegreeAdjustment DegreeOfSuccess.CRITICAL_FAILURE m
         = Some DegreeAdjustment.LOWER_BY_TWO)
  ∧ getDegreeAdjustment DegreeOfSuccess.CRITICAL_SUCCESS
      {[ "criticalSuccess" := "two-degrees-better" ]} = Some DegreeAdjustment.INCREASE_BY_TWO
  ∧ getDegreeAdjustment DegreeOfSuccess.CRITICAL_FAILURE
      {[ "criticalFailure" := "two-degrees-worse" ]} = Some DegreeAdjustment.LOWER_BY_TWO
  ∧ (∀ v m key todo s, m !! key = Some s →
       guard v (ADJUSTMENTS !! s) = false →
       getDegreeAdjustment_from v m (key :: todo) = getDegreeAdjustment_from v m todo)
  ∧ getDegreeAdjustment DegreeOfSuccess.CRITICAL_SUCCESS
      {[ "all" := "one-degree-better"; "criticalSuccess" := "two-degrees-worse" ]}
    = Some DegreeAdjustment.LOWER_BY_TWO
  ∧ getDegreeAdjustment DegreeOfSuccess.CRITICAL_FAILURE
      {[ "all" := "one-degree-worse"; "criticalFailure" := "two-degrees-better" ]}
    = Some DegreeAdjustment.INCREASE_BY_TWO.
Proof.
  assert (∀ s a, ADJUSTMENTS !! s = Some a → s ≠ "") as Hne.
  { intros s a Hs ->. vm_compute in Hs. discriminate. }
  repeat split.
  - intros m Hm. apply getDegreeAdjustment_from_guard in Hm. discriminate.
  - intros m Hm. apply getDegreeAdjustment_from_guard in Hm. discriminate.
  - intros m s Hs Ha. rewrite <- Ha. apply getDegreeAdjustment_all; eauto.
    rewrite Ha. reflexivity.
  - intros m s Hs Ha. rewrite <- Ha. apply getDegreeAdjustment_all; eauto.
    rewrite Ha. reflexivity.
  - intros v m key todo s. apply getDegreeAdjustment_from_skip.
Qed.

Lemma boundary_guard_blocks_single_steps_only_witness :
  getDegreeAdjustment_from DegreeOfSuccess.CRITICAL_SUCCESS
    {[ "all" := "one-degree-better"; "success" := "two-degrees-worse" ]}
    ["all"; "success"]
  = getDegreeAdjustment_from DegreeOfSuccess.CRITICAL_SUCCESS
      {[ "all" := "one-degree-better"; "success" := "two-degrees-worse" ]}
      ["success"].
Proof.
  apply (proj1 (proj2 (proj2 (proj2 (proj2 (proj2 (proj2
           boundary_guard_blocks_single_steps_only))))))
         _ _ "all" ["success"] "one-degree-better"); reflexivity.
Defined.

(** C3, as the spec states it, fails: with the unrecognised direction string
    [three-degrees-better] under the key [all], the resolver returns
    normally, reports no adjustment and leaves the degree as it was; and no
    map with an unrecognised string (the names that [ADJUSTMENTS] inherits
    set aside) makes the resolution of a roll throw. *)
Lemma unrecognised_direction_raises_nothing :
  getDegreeOfSuccess (λ _, nan) (λ _ _, DegreeOfSuccess.SUCCESS)
    {| terms := [JS.Number 15%float]; totalModifier := JS.Undefined |}
    {| label := None; modifiers := Some {[ "all" := "three-degrees-better" ]};
       scope := None; value := JS.Number 15%float; visibility := None |}
  = JS.Returned {| Outcome.unadjusted := DegreeOfSuccess.SUCCESS;
                   Outcome.value := DegreeOfSuccess.SUCCESS;
                   Outcome.degreeAdjustment := None |}
  ∧ ("three-degrees-better" ∉ JS.Object_prototype_names)
  ∧ ¬ (∃ S calc roll dc key s e,
         terms roll ≠ []
         ∧ plain_directions (default ∅ (modifiers dc)) = true
         ∧ default ∅ (modifiers dc) !! key = Some s
         ∧ ADJUSTMENTS !! s = None
         ∧ getDegreeOfSuccess S calc roll dc = JS.Threw e).
Proof.
  split; [vm_compute; reflexivity|]. split.
  - intros Hin. apply list_elem_of_In in Hin. simpl in Hin.
    repeat (destruct Hin as [Hin|Hin]; [discriminate Hin|]). exact Hin.
  - intros (S & calc & roll & dc & key & s & e & Hterms & _ & _ & _ & He).
    destruct (getDegreeOfSuccess_total S calc roll dc Hterms) as [r Hr].
    rewrite Hr in He. discriminate.
Qed.

(** C3, amended: for a map whose strings under the five selector keys are
    none of the names that [ADJUSTMENTS] inherits from [Object.prototype],
    resolving a roll that has a first term never throws; a direction string
    outside the four keys of [ADJUSTMENTS] then resolves to no adjustment,
    so when it belongs to the selected key the resolver reports no
    adjustment and the final degree is the unadjusted one. *)
Theorem unrecognised_direction_is_silent :
  (∀ S calc roll dc,
     terms roll ≠ [] → plain_directions (default ∅ (modifiers dc)) = true →
     ∃ r, getDegreeOfSuccess S calc roll dc = JS.Returned r)
  ∧ (∀ v m key s,
       plain_directions m = true →
       selected_key v m = Some key → m !! key = Some s → ADJUSTMENTS !! s = None →
       (s ∉ JS.Object_prototype_names) ∧ getDegreeAdjustment v m = None)
  ∧ (∀ S calc roll dc r key s,
       getDegreeOfSuccess S calc roll dc = JS.Returned r →
       plain_directions (default ∅ (modifiers dc)) = true →
       selected_key (Outcome.unadjusted r) (default ∅ (modifiers dc)) = Some key →
       default ∅ (modifiers dc) !! key = Some s → ADJUSTMENTS !! s = None →
       Outcome.degreeAdjustment r = None ∧ Outcome.value r = Outcome.unadjusted r).
Proof.
  assert (∀ v m key s,
    selected_key v m = Some key → m !! key = Some s → ADJUSTMENTS !! s = None →
    getDegreeAdjustment v m = None) as Hsilent.
  { intros v m key s Hkey Hs Ha. rewrite getDegreeAdjustment_selected. unfold selected.
    rewrite Hkey. simpl. apply head_filter_Some in Hkey as (_ & _ & _ & Hc & _).
    destruct Hc as [[s' Hd] _]. unfold resolved. rewrite Hd. simpl.
    apply direction_Some in Hd as [Hs' _]. congruence. }
  assert (∀ v m key s,
    plain_directions m = true → selected_key v m = Some key → m !! key = Some s →
    s ∉ JS.Object_prototype_names) as Hplain.
  { intros v m key s Hm Hkey Hs.
    apply head_filter_Some in Hkey as (before & after & Hprio & _).
    assert (key ∈ degrees) as Hin.
    { change degrees with priority. rewrite Hprio. apply elem_of_app. right. left. }
    unfold plain_directions in Hm. rewrite forallb_forall in Hm.
    apply list_elem_of_In, Hm in Hin. rewrite Hs in Hin.
    apply negb_true_iff, bool_decide_eq_false in Hin. exact Hin. }
  split; [intros S calc roll dc Hterms _; apply getDegreeOfSuccess_total, Hterms|].
  split; [intros v m key s Hm Hkey Hs Ha; split; eauto|].
  intros S calc roll dc r key s Hr _ Hkey Hs Ha.
  apply getDegreeOfSuccess_Returned in Hr as [Hadj Hval].
  rewrite (Hsilent _ _ _ _ Hkey Hs Ha) in Hadj. rewrite Hadj in Hval. auto.
Qed.

Lemma unrecognised_direction_is_silent_witness :
  ("three-degrees-better" ∉ JS.Object_prototype_names)
  ∧ getDegreeAdjustment DegreeOfSuccess.SUCCESS
      {[ "all" := "three-degrees-better"; "success" := "one-degree-better" ]} = None.
Proof.
  apply (proj1 (proj2 unrecognised_direction_is_silent) _ _ "all" "three-degrees-better");
    vm_compute; reflexivity.
Defined.

(** C4: for an unadjusted degree between CRITICAL_FAILURE and
    CRITICAL_SUCCESS and each of the four adjustments (steps -2, -1, +1, +2),
    the final degree of the resolver is again in that range: the shift
    saturates at the two bounds. *)
Theorem final_degree_in_range :
  (∀ a d, DegreeOfSuccess.in_range d →
     DegreeOfSuccess.in_range (adjustDegreeOfSuccess a d)
     ∧ adjustDegreeOfSuccess a d
       = (if decide (d + DegreeAdjustment.steps a < DegreeOfSuccess.CRITICAL_FAILURE)%Z
          then DegreeOfSuccess.CRITICAL_FAILURE
          else if decide (DegreeOfSuccess.CRITICAL_SUCCESS < d + DegreeAdjustment.steps a)%Z
          then DegreeOfSuccess.CRITICAL_SUCCESS
          else d + DegreeAdjustment.steps a)%Z)
  ∧ (∀ S calc roll dc r,
       getDegreeOfSuccess S calc roll dc = JS.Returned r →
       DegreeOfSuccess.in_range (Outcome.unadjusted r) →
       DegreeOfSuccess.in_range (Outcome.value r)).
Proof.
  assert (∀ a d, DegreeOfSuccess.in_range (adjustDegreeOfSuccess a d)) as Hrange.
  { intros a d. unfold DegreeOfSuccess.in_range, adjustDegreeOfSuccess,
      DegreeOfSuccess.CRITICAL_FAILURE, DegreeOfSuccess.CRITICAL_SUCCESS. lia. }
  split.
  - intros a d _. split; [apply Hrange|].
    unfold adjustDegreeOfSuccess, DegreeOfSuccess.CRITICAL_FAILURE,
      DegreeOfSuccess.CRITICAL_SUCCESS.
    repeat case_decide; lia.
  - intros S calc roll dc r Hr Hu.
    apply getDegreeOfSuccess_Returned in Hr as [_ ->].
    destruct (Outcome.degreeAdjustment r); [apply Hrange|exact Hu].
Qed.

Lemma final_degree_in_range_witness :
  DegreeOfSuccess.in_range
    (adjustDegreeOfSuccess DegreeAdjustment.INCREASE_BY_TWO DegreeOfSuccess.SUCCESS)
  ∧ adjustDegreeOfSuccess DegreeAdjustment.INCREASE_BY_TWO DegreeOfSuccess.SUCCESS
    = DegreeOfSuccess.CRITICAL_SUCCESS.
Proof.
  apply (proj1 final_degree_in_range DegreeAdjustment.INCREASE_BY_TWO DegreeOfSuccess.SUCCESS).
  vm_compute. split; discriminate.
Defined.

(** C10, as stated, fails: a total of [null], which is as missing as
    [undefined], and a total of [false], which is not numeric, give the die
    value 0 and not NaN; [Number] itself converts them to 0. *)
Lemma null_total_gives_zero :
  dieValue_of (λ _, nan) JS.Null = JS.Number 0%float
  ∧ dieValue_of (λ _, nan) (JS.Boolean false) = JS.Number 0%float
  ∧ PrimFloat.is_nan 0%float = false.
Proof. repeat split. Qed.

(** C10, amended: the die value is [Number(total) ?? 0], and [Number]
    yields a number, so the fallback 0 is never taken: the die value is
    [Number(total)] for every [total]. An [undefined] total gives NaN, not
    0, and that NaN is what the degree calculation receives; [null] and
    [false] give 0 and [true] gives 1, by [Number] itself; a number gives
    itself and a string its numeric conversion. *)
Theorem die_value_fallback_unreachable :
  (∀ S total, dieValue_of S total = JS.Number (JS.ToNumber S total))
  ∧ (∀ S, dieValue_of S JS.Undefined = JS.Number nan)
  ∧ (∀ S, dieValue_of S JS.Undefined ≠ JS.Number 0%float)
  ∧ (∀ S, dieValue_of S JS.Null = JS.Number 0%float)
  ∧ (∀ S b, dieValue_of S (JS.Boolean b) = JS.Number (if b then 1%float else 0%float))
  ∧ (∀ S n, dieValue_of S (JS.Number n) = JS.Number n)
  ∧ (∀ S s, dieValue_of S (JS.String s) = JS.Number (S s))
  ∧ (∀ S calc rest tm dc,
       ∃ r, getDegreeOfSuccess S calc {| terms := JS.Undefined :: rest; totalModifier := tm |} dc
              = JS.Returned r
            ∧ Outcome.unadjusted r
              = calc {| dieValue := JS.Number nan;
                        modifier := JS.nullish tm (JS.Number 0%float) |} (value dc)).
Proof.
  split; [reflexivity|]. split; [reflexivity|]. split; [|split; [reflexivity|]].
  - intros S H. apply (f_equal (λ v, match v with JS.Number n => PrimFloat.is_nan n | _ => false end)) in H.
    vm_compute in H. discriminate H.
  - split; [intros S [|]; reflexivity|]. split; [reflexivity|]. split; [reflexivity|].
    intros S calc rest tm dc. eexists. split; reflexivity.
Qed.

End CheckDegreeFacts.

(** * Properties of the stacking resolver *)

Module StackingFacts.
Import Modifiers.

Lemma rival_true m x :
  rival m x = true ↔ ignored x = false ∧ in_group (kind m) (type m) x.
Proof.
  unfold rival. rewrite andb_true_iff, negb_true_iff, bool_decide_eq_true. tauto.
Qed.

(** [stacks], read as a proposition. *)
Lemma stacks_true earlier later m :
  stacks earlier later m = true ↔
  ignored m = false
  ∧ (kind m = untyped
     ∨ (∀ x, x ∈ earlier → rival m x = true →
          (score (kind m) (modifier x) < score (kind m) (modifier m))%Z)
       ∧ (∀ x, x ∈ later → rival m x = true →
            (score (kind m) (modifier x) ≤ score (kind m) (modifier m))%Z)).
Proof.
  assert (∀ (l : list ModifierPF2e) (Q : ModifierPF2e → Prop) `{!∀ x, Decision (Q x)},
    forallb (λ x, negb (rival m x) || bool_decide (Q x)) l = true
    ↔ ∀ x, x ∈ l → rival m x = true → Q x) as Hall.
  { intros l Q HQ. rewrite forallb_forall. split; intros H x Hx.
    - apply list_elem_of_In, H in Hx. intros Hr. rewrite Hr in Hx. simpl in Hx.
      apply bool_decide_eq_true in Hx. exact Hx.
    - apply list_elem_of_In in Hx. destruct (rival m x) eqn:Hr; [|reflexivity].
      simpl. apply bool_decide_eq_true. auto. }
  unfold stacks. rewrite andb_true_iff, negb_true_iff.
  destruct (kind m) eqn:Hk; rewrite ?andb_true_iff, ?Hall; intuition congruence.
Qed.

Lemma length_applyStackingRules_from rest :
  ∀ earlier, length (applyStackingRules_from earlier rest) = length rest.
Proof. induction rest as [|m rest IH]; intros earlier; simpl; [|rewrite IH]; reflexivity. Qed.

(** The state that the resolver leaves the [i]-th object in. *)
Lemma applyStackingRules_from_lookup rest :
  ∀ earlier i m, rest !! i = Some m →
    applyStackingRules_from earlier rest !! i
    = Some (set_enabled (stacks (earlier ++ take i rest) (drop (S i) rest) m) m).
Proof.
  induction rest as [|m0 rest IH]; intros earlier i m Hi; [discriminate|].
  destruct i as [|i]; simpl in *.
  - injection Hi as ->. rewrite app_nil_r. reflexivity.
  - rewrite (IH _ _ _ Hi), <- app_assoc. reflexivity.
Qed.

Lemma applyStackingRules_lookup ms i m :
  ms !! i = Some m →
  applyStackingRules ms !! i = Some (set_enabled (stacks (take i ms) (drop (S i) ms) m) m).
Proof. apply (applyStackingRules_from_lookup ms []). Qed.

Lemma applyStackingRules_lookup_inv ms i w :
  applyStackingRules ms !! i = Some w →
  ∃ m, ms !! i = Some m ∧ w = set_enabled (stacks (take i ms) (drop (S i) ms) m) m.
Proof.
  intros Hw. destruct (ms !! i) as [m|] eqn:Hm.
  - rewrite (applyStackingRules_lookup _ _ _ Hm) in Hw. injection Hw as <-. eauto.
  - apply lookup_ge_None in Hm. apply lookup_lt_Some in Hw.
    unfold applyStackingRules in Hw. rewrite length_applyStackingRules_from in Hw. lia.
Qed.

(** The resolver writes [enabled] and nothing else. *)
Lemma applyStackingRules_from_frame rest :
  ∀ earlier, Forall2 enabled_only rest (applyStackingRules_from earlier rest).
Proof.
  induction rest as [|m rest IH]; intros earlier; simpl; constructor; [reflexivity|apply IH].
Qed.

Lemma applyStackingRules_frame ms : Forall2 enabled_only ms (applyStackingRules ms).
Proof. apply applyStackingRules_from_frame. Qed.

(** The members of a list before and after a position. *)
Lemma elem_of_take_lookup {A} (l : list A) i x :
  x ∈ take i l ↔ ∃ j, j < i ∧ l !! j = Some x.
Proof.
  rewrite list_elem_of_lookup. split.
  - intros [j Hj]. apply lookup_take_Some in Hj. exists j. tauto.
  - intros (j & Hlt & Hj). exists j. apply lookup_take_Some. tauto.
Qed.

Lemma elem_of_drop_lookup {A} (l : list A) i x :
  x ∈ drop (S i) l ↔ ∃ j, i < j ∧ l !! j = Some x.
Proof.
  rewrite list_elem_of_lookup. split.
  - intros [j Hj]. rewrite lookup_drop in Hj. exists (S i + j). split; [lia|exact Hj].
  - intros (j & Hlt & Hj). exists (j - S i). rewrite lookup_drop.
    replace (S i + (j - S i)) with j by lia. exact Hj.
Qed.


(** In a list with a member that satisfies [P], the first member of greatest
    rank among those that satisfy [P]. *)
Lemma exists_first_best {A} (f : A → Z) (P : A → Prop) `{!∀ x, Decision (P x)} (l : list A) :
  (∃ x, x ∈ l ∧ P x) →
  ∃ i w, l !! i = Some w ∧ P w
    ∧ ∀ j x, l !! j = Some x → P x → (f x ≤ f w)%Z ∧ (j < i → (f x < f w)%Z).
Proof.
  induction l as [|a l IH]; intros (x & Hx & HPx); [inversion Hx|].
  destruct (decide (Exists P l)) as [Hex|Hnone].
  - apply Exists_exists in Hex. destruct (IH Hex) as (i & w & Hi & HPw & Hbest).
    destruct (decide (P a ∧ (f w ≤ f a)%Z)) as [[HPa Hle]|Hworse].
    + exists 0, a. split; [reflexivity|]. split; [exact HPa|].
      intros [|j] y Hj HPy; simpl in Hj.
      * injection Hj as <-. split; lia.
      * destruct (Hbest j y Hj HPy) as [Hle' _]. split; lia.
    + exists (S i), w. split; [exact Hi|]. split; [exact HPw|].
      intros [|j] y Hj HPy; simpl in Hj.
      * injection Hj as <-. assert (f a < f w)%Z by (destruct (decide (f w ≤ f a)%Z); [tauto|lia]).
        split; lia.
      * destruct (Hbest j y Hj HPy) as [Hle Hlt]. split; [exact Hle|].
        intros Hji. apply Hlt. lia.
  - assert (x = a) as ->.
    { apply elem_of_cons in Hx as [?|Hx]; [assumption|].
      exfalso. apply Hnone, Exists_exists. eauto. }
    exists 0, a. split; [reflexivity|]. split; [exact HPx|].
    intros [|j] y Hj HPy; simpl in Hj.
    + injection Hj as <-. split; lia.
    + exfalso. apply Hnone, Exists_exists. exists y. split; [|exact HPy].
      eapply list_elem_of_lookup_2, Hj.
Qed.

(** A list in which exactly one position satisfies [P] filters to that
    member. *)
Lemma unique_index_filter {A} (P : A → Prop) `{!∀ x, Decision (P x)} (l : list A) :
  ∀ i w, l !! i = Some w → P w →
    (∀ j x, l !! j = Some x → P x → j = i) → filter P l = [w].
Proof.
  induction l as [|a l IH]; intros i w Hi HPw Huniq; [discriminate|].
  rewrite filter_cons. destruct i as [|i]; simpl in Hi.
  - injection Hi as ->. rewrite decide_True by exact HPw. f_equal.
    destruct (filter P l) as [|y ys] eqn:Hf; [reflexivity|].
    assert (y ∈ filter P l) as Hy by (rewrite Hf; left).
    apply list_elem_of_filter in Hy as [HPy Hy].
    apply list_elem_of_lookup in Hy as [j Hj].
    specialize (Huniq (S j) y Hj HPy). discriminate.
  - rewrite decide_False.
    + apply (IH i w Hi HPw). intros j x Hj HPx.
      specialize (Huniq (S j) x Hj HPx). lia.
    + intros HPa. specialize (Huniq 0 a eq_refl HPa). discriminate.
Qed.

(** The winner of a group: the one enabled member, not ignored and of the
    best score. *)
Lemma group_winner ms k t :
  k ≠ untyped →
  (∃ x, x ∈ ms ∧ in_group k t x ∧ ignored x = false) →
  ∃ i w, applyStackingRules ms !! i = Some w
    ∧ in_group k t w ∧ ignored w = false ∧ enabled w = true
    ∧ (∀ x, x ∈ ms → in_group k t x → ignored x = false →
         (score k (modifier x) ≤ score k (modifier w))%Z)
    ∧ (∀ j w', applyStackingRules ms !! j = Some w' →
         in_group k t w' → enabled w' = true → j = i).
Proof.
  intros Hk Hex.
  destruct (exists_first_best (λ x, score k (modifier x))
              (λ x, in_group k t x ∧ ignored x = false) ms)
    as (i & w & Hi & [Hgw Hiw] & Hbest).
  { destruct Hex as (x & ? & ? & ?). eauto. }
  assert (stacks (take i ms) (drop (S i) ms) w = true) as Hw.
  { apply stacks_true. split; [exact Hiw|]. right. destruct Hgw as [Hkw Htw].
    split; intros x Hx Hr; apply rival_true in Hr as [Hix Hgx];
      rewrite Hkw, Htw in Hgx; rewrite Hkw.
    - apply elem_of_take_lookup in Hx as (j & Hlt & Hj).
      apply (Hbest j x Hj (conj Hgx Hix)). exact Hlt.
    - apply elem_of_drop_lookup in Hx as (j & Hlt & Hj).
      apply (Hbest j x Hj (conj Hgx Hix)). }
  exists i, (set_enabled true w). split.
  { rewrite (applyStackingRules_lookup _ _ _ Hi), Hw. reflexivity. }
  split; [exact Hgw|]. split; [exact Hiw|]. split; [reflexivity|]. split.
  - intros x Hx Hgx Hix. apply list_elem_of_lookup in Hx as [j Hj].
    apply (Hbest j x Hj (conj Hgx Hix)).
  - intros j w' Hj Hgw' Hen.
    apply applyStackingRules_lookup_inv in Hj as (m & Hm & ->). simpl in Hen.
    apply stacks_true in Hen as [Him Hrank].
    destruct Hgw' as [Hkm Htm]. simpl in Hkm, Htm.
    destruct Hrank as [Hun|[Hearlier Hlater]]; [congruence|].
    rewrite Hkm in Hearlier, Hlater.
    assert (rival m w = true) as Hrw.
    { apply rival_true. rewrite Hkm, Htm. tauto. }
    destruct (Hbest j m Hm (conj (conj Hkm Htm) Him)) as [Hle Hlt].
    destruct (Nat.lt_trichotomy j i) as [Hji|[Hji|Hji]]; [|exact Hji|]; exfalso.
    + specialize (Hlt Hji).
      assert (w ∈ drop (S j) ms) as Hin by (apply elem_of_drop_lookup; eauto).
      specialize (Hlater w Hin Hrw). lia.
    + assert (w ∈ take j ms) as Hin by (apply elem_of_take_lookup; eauto).
      specialize (Hearlier w Hin Hrw). lia.
Qed.

(** An ignored modifier comes out disabled. *)
Lemma ignored_disabled ms m :
  m ∈ applyStackingRules ms → ignored m = true → enabled m = false.
Proof.
  intros Hm Hi. apply list_elem_of_lookup in Hm as [i Hm].
  apply applyStackingRules_lookup_inv in Hm as (m0 & _ & ->). simpl in *.
  unfold stacks. rewrite Hi. reflexivity.
Qed.

Lemma score_le k x y :
  (score k x ≤ score k y)%Z ↔
  match k with penalty => (y ≤ x)%Z | _ => (x ≤ y)%Z end.
Proof. destruct k; simpl; lia. Qed.

(** C5: after the resolver ran, a group of bonuses or of penalties of one
    subtype that has a member the user did not ignore has exactly one
    enabled member; it is not ignored and its value is the best of the
    non-ignored members (the highest bonus, the most negative penalty). A
    group without such a member has no enabled member. An untyped modifier
    is enabled exactly when the user did not ignore it. *)
Theorem one_winner_per_group :
  (∀ ms k t,
     k ≠ untyped →
     (∃ x, x ∈ ms ∧ in_group k t x ∧ ignored x = false) →
     ∃ w, filter (λ m, in_group k t m ∧ enabled m = true) (applyStackingRules ms) = [w]
       ∧ ignored w = false
       ∧ ∀ x, x ∈ ms → in_group k t x → ignored x = false →
           match k with
           | penalty => (modifier w ≤ modifier x)%Z
           | _ => (modifier x ≤ modifier w)%Z
           end)
  ∧ (∀ ms k t,
       (∀ x, x ∈ ms → in_group k t x → ignored x = true) →
       filter (λ m, in_group k t m ∧ enabled m = true) (applyStackingRules ms) = [])
  ∧ (∀ ms m, m ∈ applyStackingRules ms → kind m = untyped → enabled m = negb (ignored m)).
Proof.
  split; [|split].
  - intros ms k t Hk Hex.
    destruct (group_winner ms k t Hk Hex) as (i & w & Hi & Hg & Hiw & Hen & Hbest & Huniq).
    exists w. split; [|split; [exact Hiw|]].
    + apply (unique_index_filter _ _ i w Hi); [tauto|].
      intros j x Hj [Hgx Hex']. eauto.
    + intros x Hx Hgx Hix. apply score_le. auto.
  - intros ms k t Hall.
    destruct (filter _ (applyStackingRules ms)) as [|y ys] eqn:Hf; [reflexivity|].
    assert (y ∈ filter (λ m, in_group k t m ∧ enabled m = true) (applyStackingRules ms)) as Hy
      by (rewrite Hf; left).
    apply list_elem_of_filter in Hy as [[Hgy Hey] Hy]. exfalso.
    assert (ignored y = true) as Hiy.
    { apply list_elem_of_lookup in Hy as [i Hi].
      apply applyStackingRules_lookup_inv in Hi as (m & Hm & ->).
      apply (Hall m); [eapply list_elem_of_lookup_2, Hm|exact Hgy]. }
    rewrite (ignored_disabled ms y Hy Hiy) in Hey. discriminate.
  - intros ms m Hm Hk. apply list_elem_of_lookup in Hm as [i Hm].
    apply applyStackingRules_lookup_inv in Hm as (m0 & _ & ->). simpl in *.
    unfold stacks. rewrite Hk, andb_true_r. reflexivity.
Qed.


Lemma one_winner_per_group_witness :
  ∃ w, filter (λ m, in_group bonus (Some "circumstance") m ∧ enabled m = true)
         (applyStackingRules Scenarios.two_circumstance_bonuses) = [w]
    ∧ ignored w = false
    ∧ ∀ x, x ∈ Scenarios.two_circumstance_bonuses →
        in_group bonus (Some "circumstance") x → ignored x = false →
        (modifier x ≤ modifier w)%Z.
Proof.
  apply (proj1 one_winner_per_group Scenarios.two_circumstance_bonuses
           bonus (Some "circumstance")); [discriminate|].
  exists (Scenarios.sample "a" 2 bonus (Some "circumstance") false None).
  split; [left|]. split; [split|]; reflexivity.
Defined.

(** ** Ignored modifiers take no part in the ranking *)

Lemma forallb_filter {A} (P : A → Prop) `{!∀ x, Decision (P x)} (g : A → bool) (l : list A) :
  (∀ x, ¬ P x → g x = true) → forallb g (filter P l) = forallb g l.
Proof.
  intros Hg. induction l as [|x l IH]; [reflexivity|].
  rewrite filter_cons. destruct (decide (P x)) as [Hx|Hx]; simpl.
  - rewrite IH. reflexivity.
  - rewrite (Hg x Hx), IH. reflexivity.
Qed.

Lemma stacks_filter_ignored earlier later m :
  stacks (filter (λ x, ignored x = false) earlier) (filter (λ x, ignored x = false) later) m
  = stacks earlier later m.
Proof.
  unfold stacks.
  destruct (kind m); [| |reflexivity];
    rewrite !forallb_filter
      by (intros x Hx; unfold rival; destruct (ignored x); [reflexivity|contradiction]);
    reflexivity.
Qed.

(** Removing the ignored modifiers from the list does not change what the
    resolver decides for the others. *)
Lemma applyStackingRules_from_filter rest :
  ∀ earlier,
    filter (λ x, ignored x = false) (applyStackingRules_from earlier rest)
    = applyStackingRules_from (filter (λ x, ignored x = false) earlier)
        (filter (λ x, ignored x = false) rest).
Proof.
  induction rest as [|m rest IH]; intros earlier; [reflexivity|].
  simpl. rewrite !filter_cons. simpl.
  destruct (decide (ignored m = false)) as [Hm|Hm]; simpl.
  - rewrite stacks_filter_ignored. f_equal.
    rewrite IH, filter_app, filter_cons, decide_True by exact Hm. reflexivity.
  - rewrite IH, filter_app, filter_cons, decide_False by exact Hm.
    rewrite filter_nil, app_nil_r. reflexivity.
Qed.

(** ** Idempotence *)

Definition erase (m : ModifierPF2e) : ModifierPF2e := set_enabled false m.

Lemma forallb_fmap {A B} (f : A → B) (g : B → bool) (l : list A) :
  forallb g (f <$> l) = forallb (λ x, g (f x)) l.
Proof. induction l as [|x l IH]; simpl; [reflexivity|]. f_equal. exact IH. Qed.

(** The decision of the resolver does not read [enabled]. *)
Lemma stacks_erase earlier later m :
  stacks (erase <$> earlier) (erase <$> later) (erase m) = stacks earlier later m.
Proof.
  unfold stacks. rewrite !forallb_fmap. reflexivity.
Qed.

Lemma erase_applyStackingRules_from rest :
  ∀ earlier, erase <$> applyStackingRules_from earlier rest = erase <$> rest.
Proof.
  induction rest as [|m rest IH]; intros earlier; simpl; [reflexivity|].
  f_equal. apply IH.
Qed.

Lemma applyStackingRules_from_idempotent rest :
  ∀ earlier earlier', erase <$> earlier' = erase <$> earlier →
    applyStackingRules_from earlier' (applyStackingRules_from earlier rest)
    = applyStackingRules_from earlier rest.
Proof.
  induction rest as [|m rest IH]; intros earlier earlier' He; [reflexivity|].
  simpl. f_equal.
  - rewrite <- (stacks_erase earlier'), erase_applyStackingRules_from, He.
    change (erase (set_enabled (stacks earlier rest m) m)) with (erase m).
    rewrite stacks_erase. reflexivity.
  - apply IH. rewrite !fmap_app, He. reflexivity.
Qed.

Lemma applyStackingRules_idempotent ms :
  applyStackingRules (applyStackingRules ms) = applyStackingRules ms.
Proof. apply applyStackingRules_from_idempotent. reflexivity. Qed.

End StackingFacts.

(** * Properties of the damage dialog *)

Module DialogFacts.
Import Modifiers DamageDialog StackingFacts.

(** ** Writing back through a filtered array *)

Section WriteBack.
Context {A : Type} (P : A → Prop) `{!∀ x, Decision (P x)}.

Lemma length_write_back (store after : list A) :
  length (write_back P store after) = length store.
Proof.
  revert after. induction store as [|m store IH]; intros after; simpl; [reflexivity|].
  destruct (decide (P m)); [destruct after|]; simpl; rewrite ?IH; reflexivity.
Qed.

Lemma write_back_filter_id (store : list A) : write_back P store (filter P store) = store.
Proof.
  induction store as [|m store IH]; simpl; [reflexivity|].
  rewrite filter_cons. destruct (decide (P m)); simpl; rewrite IH; reflexivity.
Qed.

(** The objects that satisfy [P] are, afterwards, in the states [after]. *)
Lemma filter_write_back (store after : list A) :
  Forall P after → length after = length (filter P store) →
  filter P (write_back P store after) = after.
Proof.
  revert after. induction store as [|m store IH]; intros after Hafter Hlen; simpl.
  - destruct after; [reflexivity|discriminate].
  - rewrite filter_cons in Hlen. destruct (decide (P m)) as [Hm|Hm].
    + destruct after as [|m' after]; [discriminate|].
      apply Forall_cons in Hafter as [Hm' Hafter]. simpl in Hlen.
      rewrite filter_cons, decide_True by exact Hm'. f_equal. apply IH; [exact Hafter|lia].
    + rewrite filter_cons, decide_False by exact Hm. apply IH; assumption.
Qed.

(** The other objects are left as they were. *)
Lemma filter_write_back_other (Q : A → Prop) `{!∀ x, Decision (Q x)} (store after : list A) :
  (∀ x, P x → ¬ Q x) → Forall P after →
  filter Q (write_back P store after) = filter Q store.
Proof.
  intros HPQ. revert after.
  induction store as [|m store IH]; intros after Hafter; simpl; [reflexivity|].
  destruct (decide (P m)) as [Hm|Hm].
  - destruct after as [|m' after]; [reflexivity|].
    apply Forall_cons in Hafter as [Hm' Hafter].
    rewrite !filter_cons, !decide_False by auto. apply IH. exact Hafter.
  - rewrite !filter_cons. destruct (decide (Q m)); rewrite IH by exact Hafter; reflexivity.
Qed.

Lemma Forall2_write_back (R : A → A → Prop) (store after : list A) :
  (∀ x, R x x) → Forall2 R (filter P store) after →
  Forall2 R store (write_back P store after).
Proof.
  intros Hrefl. revert after.
  induction store as [|m store IH]; intros after Hafter; simpl; [constructor|].
  rewrite filter_cons in Hafter. destruct (decide (P m)) as [Hm|Hm].
  - destruct after as [|m' after]; [inversion Hafter|].
    apply Forall2_cons in Hafter as [Hmm' Hafter]. constructor; [exact Hmm'|]. auto.
  - constructor; [apply Hrefl|]. auto.
Qed.
End WriteBack.

Lemma Forall_filter_self {A} (P : A → Prop) `{!∀ x, Decision (P x)} (l : list A) :
  Forall P (filter P l).
Proof. apply Forall_forall. intros m Hm. apply list_elem_of_filter in Hm. tauto. Qed.

Lemma enabled_only_refl m : enabled_only m m.
Proof. destruct m. reflexivity. Qed.

Lemma enabled_only_trans a b c : enabled_only a b → enabled_only b c → enabled_only a c.
Proof. unfold enabled_only. intros -> ->. reflexivity. Qed.

Lemma enabled_only_category a b : enabled_only a b → category b = category a.
Proof. unfold enabled_only. intros ->. reflexivity. Qed.

Section Resolver.
Variable R : list ModifierPF2e → list ModifierPF2e.
(** What the spec says of the resolver's side effects: it writes [enabled]
    and nothing else. *)
Hypothesis R_frame : ∀ ms, Forall2 enabled_only ms (R ms).

Lemma R_length ms : length (R ms) = length ms.
Proof. symmetry. eapply Forall2_length, R_frame. Qed.

Lemma R_preserves (Q : ModifierPF2e → Prop) ms :
  (∀ a b, enabled_only a b → Q a → Q b) → Forall Q ms → Forall Q (R ms).
Proof.
  intros HQ Hms. apply Forall_lookup. intros i m' Hi.
  destruct (Forall2_lookup_r _ _ _ _ _ (R_frame ms) Hi) as (m & Hm & Hmm').
  apply (HQ m m' Hmm'). apply (Forall_lookup_1 _ _ _ _ Hms Hm).
Qed.

Lemma R_persistent ms : Forall persistent (R (filter persistent ms)).
Proof.
  apply R_preserves; [|apply Forall_filter_self].
  intros a b Hab. unfold persistent. rewrite (enabled_only_category _ _ Hab). tauto.
Qed.

Lemma R_ordinary ms :
  Forall (λ m, ¬ persistent m) (R (filter (λ m, ¬ persistent m) ms)).
Proof.
  apply R_preserves; [|apply Forall_filter_self].
  intros a b Hab. unfold persistent. rewrite (enabled_only_category _ _ Hab). tauto.
Qed.

(** After [#applyStackingRules], the ordinary modifiers are as the resolver
    leaves them when it is given the ordinary modifiers alone. *)
Lemma private_filter_ordinary ms :
  filter (λ m, ¬ persistent m) (private_applyStackingRules R ms)
  = R (filter (λ m, ¬ persistent m) ms).
Proof.
  unfold private_applyStackingRules.
  rewrite (filter_write_back_other persistent (λ m, ¬ persistent m)).
  - apply (filter_write_back (λ m, ¬ persistent m)); [apply R_ordinary|apply R_length].
  - tauto.
  - apply R_persistent.
Qed.

(** And the persistent ones as it leaves them when it is given the
    persistent modifiers alone. *)
Lemma private_filter_persistent ms :
  filter persistent (private_applyStackingRules R ms) = R (filter persistent ms).
Proof.
  unfold private_applyStackingRules.
  rewrite (filter_write_back persistent).
  - rewrite (filter_write_back_other (λ m, ¬ persistent m) persistent); [reflexivity|tauto|].
    apply R_ordinary.
  - apply R_persistent.
  - apply R_length.
Qed.

Lemma private_frame ms : Forall2 enabled_only ms (private_applyStackingRules R ms).
Proof.
  unfold private_applyStackingRules.
  set (ms1 := write_back _ ms _).
  assert (Forall2 enabled_only ms ms1) as H1
    by (apply Forall2_write_back; [apply enabled_only_refl|apply R_frame]).
  assert (Forall2 enabled_only ms1 (write_back persistent ms1 (R (filter persistent ms1)))) as H2
    by (apply Forall2_write_back; [apply enabled_only_refl|apply R_frame]).
  apply Forall2_lookup. intros i.
  apply (Forall2_lookup) with (i := i) in H1. apply (Forall2_lookup) with (i := i) in H2.
  destruct H1 as [a b Hab|]; inversion H2 as [b' c Hbc|]; subst; constructor.
  eapply enabled_only_trans; eauto.
Qed.

Lemma private_elem ms m :
  m ∈ private_applyStackingRules R ms →
  m ∈ R (filter (λ m, ¬ persistent m) ms) ∨ m ∈ R (filter persistent ms).
Proof.
  intros Hm. destruct (decide (persistent m)) as [Hp|Hp].
  - right. rewrite <- private_filter_persistent. apply list_elem_of_filter. tauto.
  - left. rewrite <- private_filter_ordinary. apply list_elem_of_filter. tauto.
Qed.

(** If the resolver is idempotent, so is [#applyStackingRules]. *)
Lemma private_idempotent ms :
  (∀ l, R (R l) = R l) →
  private_applyStackingRules R (private_applyStackingRules R ms)
  = private_applyStackingRules R ms.
Proof.
  intros Hidem. set (ms2 := private_applyStackingRules R ms).
  unfold private_applyStackingRules at 1.
  assert (R (filter (λ m, ¬ persistent m) ms2) = filter (λ m, ¬ persistent m) ms2) as ->.
  { unfold ms2. rewrite private_filter_ordinary. apply Hidem. }
  rewrite write_back_filter_id.
  assert (R (filter persistent ms2) = filter persistent ms2) as ->.
  { unfold ms2. rewrite private_filter_persistent. apply Hidem. }
  apply write_back_filter_id.
Qed.

End Resolver.


(** C6: [#applyStackingRules] resolves the persistent modifiers and the
    others separately: after it, each of the two partitions is as the
    resolver leaves it when given that partition alone, so what is decided
    for the modifiers of one partition does not depend on the members of the
    other. *)
Theorem partitions_stack_separately (R : list ModifierPF2e → list ModifierPF2e) :
  (∀ ms, Forall2 enabled_only ms (R ms)) →
  (∀ ms,
     filter (λ m, ¬ persistent m) (private_applyStackingRules R ms)
       = R (filter (λ m, ¬ persistent m) ms)
     ∧ filter persistent (private_applyStackingRules R ms) = R (filter persistent ms))
  ∧ (∀ ms ms',
       filter (λ m, ¬ persistent m) ms = filter (λ m, ¬ persistent m) ms' →
       filter (λ m, ¬ persistent m) (private_applyStackingRules R ms)
       = filter (λ m, ¬ persistent m) (private_applyStackingRules R ms'))
  ∧ (∀ ms ms',
       filter persistent ms = filter persistent ms' →
       filter persistent (private_applyStackingRules R ms)
       = filter persistent (private_applyStackingRules R ms')).
Proof.
  intros HR. split; [|split].
  - intros ms. split; [apply private_filter_ordinary|apply private_filter_persistent]; exact HR.
  - intros ms ms' Heq. rewrite !private_filter_ordinary, Heq by exact HR. reflexivity.
  - intros ms ms' Heq. rewrite !private_filter_persistent, Heq by exact HR. reflexivity.
Qed.

Lemma partitions_stack_separately_witness :
  enabled <$> private_applyStackingRules applyStackingRules Scenarios.two_partitions
    = [true; true]
  ∧ filter (λ m, ¬ persistent m)
      (private_applyStackingRules applyStackingRules Scenarios.two_partitions)
    = applyStackingRules (filter (λ m, ¬ persistent m) Scenarios.two_partitions)
  ∧ filter persistent
      (private_applyStackingRules applyStackingRules Scenarios.two_partitions)
    = applyStackingRules (filter persistent Scenarios.two_partitions).
Proof.
  split; [reflexivity|].
  apply (proj1 (partitions_stack_separately applyStackingRules applyStackingRules_frame)
           Scenarios.two_partitions).
Defined.

(** What the checkbox listener does to the modifier whose box the user
    cleared, under the resolver of the spec. *)
Lemma uncheck_disables this i m dieIndex :
  modifiers this !! i = Some m →
  modifiers (dispatch applyStackingRules this (CheckboxClick (Some i) dieIndex false)) !! i
  = Some (set_enabled false (set_ignored true m)).
Proof.
  intros Hm. unfold dispatch, onCheckboxClick. rewrite Hm. simpl.
  set (ms := <[i := set_ignored true m]> (modifiers this)).
  assert (ms !! i = Some (set_ignored true m)) as Hi.
  { apply list_lookup_insert_eq. eapply lookup_lt_Some, Hm. }
  pose proof (private_frame applyStackingRules applyStackingRules_frame ms) as Hframe.
  destruct (Forall2_lookup_l _ _ _ _ _ Hframe Hi) as (m' & Hm' & Hmm').
  rewrite Hm'. f_equal. unfold enabled_only in Hmm'. rewrite Hmm'. f_equal.
  assert (ignored m' = true) as Hign by (rewrite Hmm'; reflexivity).
  apply list_elem_of_lookup_2 in Hm'.
  apply (private_elem applyStackingRules applyStackingRules_frame) in Hm' as [Hin|Hin];
    eapply ignored_disabled; eauto.
Qed.

(** C7: the resolver disables every modifier that the user ignored, whatever
    its value, and ranks the others as if the ignored ones were not in the
    list; so a group with a member that is not ignored has an enabled winner
    that is not ignored. Clearing the checkbox of a modifier in the dialog
    sets [ignored] and leaves the modifier disabled. *)
Theorem manual_ignore_sticks :
  (∀ ms m, m ∈ applyStackingRules ms → ignored m = true → enabled m = false)
  ∧ (∀ ms,
       filter (λ x, ignored x = false) (applyStackingRules ms)
       = applyStackingRules (filter (λ x, ignored x = false) ms))
  ∧ (∀ ms k t,
       k ≠ untyped →
       (∃ x, x ∈ ms ∧ in_group k t x ∧ ignored x = false) →
       ∃ w, w ∈ applyStackingRules ms
         ∧ in_group k t w ∧ ignored w = false ∧ enabled w = true)
  ∧ (∀ this i m dieIndex,
       modifiers this !! i = Some m →
       modifiers (dispatch applyStackingRules this (CheckboxClick (Some i) dieIndex false)) !! i
       = Some (set_enabled false (set_ignored true m))).
Proof.
  split; [exact ignored_disabled|]. split; [|split].
  - intros ms. apply (applyStackingRules_from_filter ms []).
  - intros ms k t Hk Hex.
    destruct (group_winner ms k t Hk Hex) as (i & w & Hi & Hg & Hiw & Hen & _).
    exists w. split; [eapply list_elem_of_lookup_2, Hi|]. auto.
  - exact uncheck_disables.
Qed.

Lemma manual_ignore_sticks_witness :
  enabled <$> applyStackingRules Scenarios.ignored_best = [false; true]
  ∧ ∃ w, w ∈ applyStackingRules Scenarios.ignored_best
      ∧ in_group bonus (Some "circumstance") w ∧ ignored w = false ∧ enabled w = true.
Proof.
  split; [reflexivity|].
  apply (proj1 (proj2 (proj2 manual_ignore_sticks)) Scenarios.ignored_best
           bonus (Some "circumstance")); [discriminate|].
  exists (Scenarios.sample "b" 2 bonus (Some "circumstance") false None).
  split; [right; left|]. split; [split|]; reflexivity.
Defined.

(** C8: running the resolver on its own output changes nothing: the second
    run leaves every modifier, and so every [enabled] flag, as the first
    run did. The same holds for the dialog's [#applyStackingRules]. *)
Theorem stacking_idempotent :
  (∀ ms, applyStackingRules (applyStackingRules ms) = applyStackingRules ms)
  ∧ (∀ ms, enabled <$> applyStackingRules (applyStackingRules ms)
           = enabled <$> applyStackingRules ms)
  ∧ (∀ ms, private_applyStackingRules applyStackingRules
             (private_applyStackingRules applyStackingRules ms)
           = private_applyStackingRules applyStackingRules ms).
Proof.
  split; [exact applyStackingRules_idempotent|]. split.
  - intros ms. rewrite applyStackingRules_idempotent. reflexivity.
  - intros ms. apply private_idempotent;
      [exact applyStackingRules_frame|exact applyStackingRules_idempotent].
Qed.

(** ** What the dialog remembers of its construction *)

Lemma elem_of_enabled_set ms i :
  i ∈ enabled_set ms ↔ ∃ m, ms !! i = Some m ∧ enabled m = true.
Proof.
  unfold enabled_set. rewrite elem_of_list_to_set, list_elem_of_fmap. split.
  - intros ([j m] & -> & Hjm). apply list_elem_of_filter in Hjm as [Hen Hjm].
    apply elem_of_lookup_imap in Hjm as (k & x & [= -> ->] & Hk). eauto.
  - intros (m & Hm & Hen). exists (i, m). split; [reflexivity|].
    apply list_elem_of_filter. split; [exact Hen|].
    apply elem_of_lookup_imap. eauto.
Qed.

Lemma length_private R ms : length (private_applyStackingRules R ms) = length ms.
Proof. unfold private_applyStackingRules. rewrite !length_write_back. reflexivity. Qed.

(** No listener touches [#originallyEnabled], and none removes an entry of
    the array of modifiers. *)
Lemma dispatch_originallyEnabled R this ev :
  originallyEnabled (dispatch R this ev) = originallyEnabled this.
Proof.
  destruct ev as [[i|] [j|] checked|m|d|]; unfold dispatch; simpl;
    unfold onCheckboxClick, onAddModifierClick;
    repeat (case_match || case_bool_decide); simplify_eq; reflexivity.
Qed.

Lemma dispatch_length R this ev :
  length (modifiers this) ≤ length (modifiers (dispatch R this ev)).
Proof.
  destruct ev as [[i|] [j|] checked|m|d|]; unfold dispatch; simpl;
    unfold onCheckboxClick, onAddModifierClick;
    repeat (case_match || case_bool_decide); simplify_eq; simpl;
    rewrite ?length_private, ?length_insert, ?length_app; simpl; lia.
Qed.

Lemma run_originallyEnabled R events :
  ∀ this, originallyEnabled (run R this events) = originallyEnabled this.
Proof.
  induction events as [|ev events IH]; intros this; [reflexivity|].
  simpl. rewrite IH. apply dispatch_originallyEnabled.
Qed.

Lemma run_length R events :
  ∀ this, length (modifiers this) ≤ length (modifiers (run R this events)).
Proof.
  induction events as [|ev events IH]; intros this; [reflexivity|].
  simpl. etrans; [apply (dispatch_length R this ev)|apply IH].
Qed.

(** The [hideIfDisabled] that [getData] reports for the [i]-th modifier. *)
Lemma getData_hideIfDisabled this i m :
  modifiers this !! i = Some m →
  ∃ md, getData this !! i = Some md
    ∧ ModifierData.hideIfDisabled md
      = negb (bool_decide (i ∈ originallyEnabled this)) && hideIfDisabled m.
Proof.
  intros Hm. unfold getData. rewrite list_lookup_imap, Hm. simpl. eauto.
Qed.

(** C9: whatever the user does after the dialog was constructed, [getData]
    reports [hideIfDisabled = false] for a modifier that was enabled at
    construction, also when stacking or a cleared checkbox has disabled it
    since, and reports the modifier's own [hideIfDisabled] for any other
    modifier; the modifiers present at construction stay in the dialog. *)
Theorem originally_enabled_stays_visible (R : list ModifierPF2e → list ModifierPF2e) :
  (∀ params events i m,
     modifiers (run R (constructor params) events) !! i = Some m →
     ∃ md, getData (run R (constructor params) events) !! i = Some md
       ∧ ModifierData.hideIfDisabled md
         = if default false (enabled <$> formula_modifiers params !! i)
           then false
           else hideIfDisabled m)
  ∧ (∀ params events i m0,
       formula_modifiers params !! i = Some m0 →
       is_Some (modifiers (run R (constructor params) events) !! i)).
Proof.
  split.
  - intros params events i m Hm.
    destruct (getData_hideIfDisabled _ i m Hm) as (md & Hmd & Hhide).
    exists md. split; [exact Hmd|]. rewrite Hhide, run_originallyEnabled. simpl.
    destruct (formula_modifiers params !! i) as [m0|] eqn:Hm0; simpl.
    + destruct (enabled m0) eqn:Hen.
      * rewrite bool_decide_eq_true_2 by (apply elem_of_enabled_set; eauto). reflexivity.
      * rewrite bool_decide_eq_false_2; [reflexivity|].
        intros (m1 & Hm1 & Hen1)%elem_of_enabled_set. congruence.
    + rewrite bool_decide_eq_false_2; [reflexivity|].
      intros (m1 & Hm1 & Hen1)%elem_of_enabled_set. congruence.
  - intros params events i m0 Hm0. apply lookup_lt_is_Some.
    apply lookup_lt_Some in Hm0.
    pose proof (run_length R events (constructor params)) as Hlen. simpl in Hlen. lia.
Qed.

Lemma originally_enabled_stays_visible_witness :
  enabled <$> modifiers
    (run applyStackingRules
       (constructor {| formula_modifiers := Scenarios.two_circumstance_bonuses;
                       formula_dice := []; outcome := Some "success" |})
       [CheckboxClick (Some 1) None true])
    = [false; true]
  ∧ ∃ md, getData
      (run applyStackingRules
         (constructor {| formula_modifiers := Scenarios.two_circumstance_bonuses;
                         formula_dice := []; outcome := Some "success" |})
         [CheckboxClick (Some 1) None true]) !! 0 = Some md
    ∧ ModifierData.hideIfDisabled md = false.
Proof.
  split; [reflexivity|].
  apply (proj1 (originally_enabled_stays_visible applyStackingRules)
           {| formula_modifiers := Scenarios.two_circumstance_bonuses;
              formula_dice := []; outcome := Some "success" |}
           [CheckboxClick (Some 1) None true] 0
           (set_enabled false (Scenarios.sample "a" 2 bonus (Some "circumstance") false None))).
  reflexivity.
Defined.

End DialogFacts.

(** * Further properties of the outcome resolver *)

Module CheckDegreeMore.
Import CheckDegree SelectionRule CheckDegreeFacts.

(** A key whose prefix is another degree than [value] is passed over. *)
Lemma loop_step_miss v m key todo c :
  PREFIXES !! key = Some c → c ≠ (-1)%Z → v ≠ c →
  getDegreeAdjustment_from v m (key :: todo) = getDegreeAdjustment_from v m todo.
Proof.
  intros Hc Hall Hv. simpl. rewrite Hc.
  destruct (m !! key) as [s|]; [|reflexivity].
  case_bool_decide; [reflexivity|].
  destruct (guard v (ADJUSTMENTS !! s)); [|reflexivity].
  rewrite bool_decide_eq_false_2 by (vm_compute (PREFIXES !! "all"); congruence).
  rewrite bool_decide_eq_false_2 by congruence. reflexivity.
Qed.

(** At the key of [value] the loop ends, unless the entry is missing, empty
    or rejected by the guard. *)
Lemma loop_step_hit v m key todo :
  PREFIXES !! key = Some v →
  getDegreeAdjustment_from v m (key :: todo)
  = match m !! key with
    | Some s =>
        if bool_decide (s = "") then getDegreeAdjustment_from v m todo
        else if guard v (ADJUSTMENTS !! s) then ADJUSTMENTS !! s
        else getDegreeAdjustment_from v m todo
    | None => getDegreeAdjustment_from v m todo
    end.
Proof.
  intros Hc. simpl. rewrite Hc.
  destruct (m !! key) as [s|]; [|reflexivity].
  case_bool_decide; [reflexivity|].
  destruct (guard v (ADJUSTMENTS !! s)); [|reflexivity].
  case_bool_decide; [reflexivity|]. rewrite bool_decide_eq_true_2; reflexivity.
Qed.

(** A missing or empty entry is passed over. *)
Lemma loop_step_absent v m key todo :
  m !! key = None ∨ m !! key = Some "" →
  getDegreeAdjustment_from v m (key :: todo) = getDegreeAdjustment_from v m todo.
Proof. intros [H|H]; simpl; rewrite H; reflexivity. Qed.

Lemma getDegreeAdjustment_from_agree v m m' todo :
  (∀ key, key ∈ todo → m !! key = m' !! key) →
  getDegreeAdjustment_from v m todo = getDegreeAdjustment_from v m' todo.
Proof.
  induction todo as [|key todo IH]; intros Hagree; [reflexivity|].
  simpl. rewrite <- (Hagree key) by left.
  rewrite IH by (intros k Hk; apply Hagree; right; exact Hk). reflexivity.
Qed.

(** X2: when none of the five keys holds a non-empty string, in particular
    when the DC has no [modifiers] at all, no adjustment is selected and the
    resolver returns the unadjusted degree. *)
Theorem no_direction_no_adjustment :
  (∀ v m, (∀ key, key ∈ degrees → m !! key = None ∨ m !! key = Some "") →
     getDegreeAdjustment v m = None)
  ∧ (∀ S calc roll dc r,
       modifiers dc = None →
       getDegreeOfSuccess S calc roll dc = JS.Returned r →
       Outcome.degreeAdjustment r = None ∧ Outcome.value r = Outcome.unadjusted r).
Proof.
  assert (∀ v m, (∀ key, key ∈ degrees → m !! key = None ∨ m !! key = Some "") →
    getDegreeAdjustment v m = None) as Hnone.
  { intros v m Hm. unfold getDegreeAdjustment, degrees in *.
    rewrite !loop_step_absent by (apply Hm, list_elem_of_In; simpl; tauto). reflexivity. }
  split; [exact Hnone|].
  intros S calc roll dc r Hdc Hr.
  apply getDegreeOfSuccess_Returned in Hr as [Hadj Hval].
  rewrite Hdc, Hnone in Hadj by (intros key _; left; apply lookup_empty).
  rewrite Hadj in Hval. auto.
Qed.

Lemma no_direction_no_adjustment_witness :
  getDegreeAdjustment DegreeOfSuccess.SUCCESS {[ "all" := "" ]} = None.
Proof.
  apply (proj1 no_direction_no_adjustment). intros key _.
  destruct (decide (key = "all")) as [->|Hne]; [right; reflexivity|left].
  apply lookup_singleton_ne. congruence.
Defined.

(** X3: the selector reads the five selector keys and nothing else: two
    maps that agree on them give the same adjustment. *)
Theorem only_selector_keys_are_read v m m' :
  (∀ key, key ∈ degrees → m !! key = m' !! key) →
  getDegreeAdjustment v m = getDegreeAdjustment v m'.
Proof. apply getDegreeAdjustment_from_agree. Qed.

Lemma only_selector_keys_are_read_witness :
  getDegreeAdjustment DegreeOfSuccess.FAILURE {[ "failure" := "one-degree-better" ]}
  = getDegreeAdjustment DegreeOfSuccess.FAILURE
      (<["label" := "one-degree-worse"]> {[ "failure" := "one-degree-better" ]}).
Proof.
  apply only_selector_keys_are_read. intros key Hkey.
  rewrite lookup_insert_ne; [reflexivity|].
  intros <-. vm_compute in Hkey. repeat (apply elem_of_cons in Hkey as [Hkey|Hkey]; [discriminate|]).
  inversion Hkey.
Defined.

(** X4: without a usable entry under [all], the adjustment for a degree in
    range is decided by the one key that names that degree: the entries of
    the other degrees are never consulted. For a value outside the range no
    key matches and nothing is selected. *)
Theorem degree_key_decides :
  (∀ v m key,
     m !! "all" = None ∨ m !! "all" = Some "" →
     DegreeOfSuccess.in_range v →
     DegreeOfSuccessText !! Z.to_nat v = Some key →
     getDegreeAdjustment v m
     = match m !! key with
       | Some s => if guard v (ADJUSTMENTS !! s) then ADJUSTMENTS !! s else None
       | None => None
       end)
  ∧ (∀ v m,
       m !! "all" = None ∨ m !! "all" = Some "" →
       ¬ DegreeOfSuccess.in_range v →
       getDegreeAdjustment v m = None).
Proof.
  assert (∀ v m key (todo : list string),
    PREFIXES !! key = Some v →
    getDegreeAdjustment_from v m todo = None →
    getDegreeAdjustment_from v m (key :: todo)
    = match m !! key with
      | Some s => if guard v (ADJUSTMENTS !! s) then ADJUSTMENTS !! s else None
      | None => None
      end) as Hhit.
  { intros v m key todo Hkey Hrest. rewrite (loop_step_hit _ _ _ _ Hkey), Hrest.
    destruct (m !! key) as [s|]; [|reflexivity].
    case_bool_decide as Hs; [|reflexivity]. rewrite Hs.
    vm_compute (ADJUSTMENTS !! ""). destruct (guard v None); reflexivity. }
  split.
  - intros v m key Hall [Hlo Hhi] Hkey.
    unfold DegreeOfSuccess.CRITICAL_FAILURE, DegreeOfSuccess.CRITICAL_SUCCESS in Hlo, Hhi.
    unfold getDegreeAdjustment, degrees. rewrite (loop_step_absent _ _ _ _ Hall).
    assert (v = 0 ∨ v = 1 ∨ v = 2 ∨ v = 3)%Z as [-> | [-> | [-> | ->]]] by lia;
      simpl in Hkey; injection Hkey as <-.
    + apply Hhit; [reflexivity|].
      rewrite (loop_step_miss 0 m "failure" _ 1), (loop_step_miss 0 m "success" _ 2),
        (loop_step_miss 0 m "criticalSuccess" _ 3) by (reflexivity || discriminate).
      reflexivity.
    + rewrite (loop_step_miss 1 m "criticalFailure" _ 0) by (reflexivity || discriminate).
      apply Hhit; [reflexivity|].
      rewrite (loop_step_miss 1 m "success" _ 2),
        (loop_step_miss 1 m "criticalSuccess" _ 3) by (reflexivity || discriminate).
      reflexivity.
    + rewrite (loop_step_miss 2 m "criticalFailure" _ 0),
        (loop_step_miss 2 m "failure" _ 1) by (reflexivity || discriminate).
      apply Hhit; [reflexivity|].
      rewrite (loop_step_miss 2 m "criticalSuccess" _ 3) by (reflexivity || discriminate).
      reflexivity.
    + rewrite (loop_step_miss 3 m "criticalFailure" _ 0),
        (loop_step_miss 3 m "failure" _ 1),
        (loop_step_miss 3 m "success" _ 2) by (reflexivity || discriminate).
      apply Hhit; reflexivity.
  - intros v m Hall Hv.
    unfold DegreeOfSuccess.in_range, DegreeOfSuccess.CRITICAL_FAILURE,
      DegreeOfSuccess.CRITICAL_SUCCESS in Hv.
    unfold getDegreeAdjustment, degrees. rewrite (loop_step_absent _ _ _ _ Hall).
    rewrite (loop_step_miss v m "criticalFailure" _ 0) by (reflexivity || lia).
    rewrite (loop_step_miss v m "failure" _ 1) by (reflexivity || lia).
    rewrite (loop_step_miss v m "success" _ 2) by (reflexivity || lia).
    rewrite (loop_step_miss v m "criticalSuccess" _ 3) by (reflexivity || lia).
    reflexivity.
Qed.

Lemma degree_key_decides_witness :
  getDegreeAdjustment DegreeOfSuccess.SUCCESS
    {[ "failure" := "two-degrees-worse"; "success" := "one-degree-better" ]}
  = Some DegreeAdjustment.INCREASE.
Proof.
  refine (proj1 degree_key_decides DegreeOfSuccess.SUCCESS
            {[ "failure" := "two-degrees-worse"; "success" := "one-degree-better" ]}
            "success" _ _ _); [left; reflexivity|vm_compute; split; discriminate|reflexivity].
Defined.

(** X5: an adjustment that the resolver applies to a degree in range moves
    it: a single step moves it by exactly one, a double step by at most two,
    and the degree stays where it was only for INCREASE_BY_TWO at
    CRITICAL_SUCCESS and LOWER_BY_TWO at CRITICAL_FAILURE. *)
Theorem applied_adjustment_moves_degree S calc roll dc r a :
  getDegreeOfSuccess S calc roll dc = JS.Returned r →
  DegreeOfSuccess.in_range (Outcome.unadjusted r) →
  Outcome.degreeAdjustment r = Some a →
  (a = DegreeAdjustment.INCREASE → Outcome.value r = Outcome.unadjusted r + 1)%Z
  ∧ (a = DegreeAdjustment.LOWER → Outcome.value r = Outcome.unadjusted r - 1)%Z
  ∧ (Outcome.unadjusted r - 2 ≤ Outcome.value r ≤ Outcome.unadjusted r + 2)%Z
  ∧ (Outcome.value r = Outcome.unadjusted r →
       (Outcome.unadjusted r = DegreeOfSuccess.CRITICAL_SUCCESS
        ∧ a = DegreeAdjustment.INCREASE_BY_TWO)
       ∨ (Outcome.unadjusted r = DegreeOfSuccess.CRITICAL_FAILURE
          ∧ a = DegreeAdjustment.LOWER_BY_TWO)).
Proof.
  intros Hr Hrange Ha. apply getDegreeOfSuccess_Returned in Hr as [Hadj Hval].
  rewrite Ha in Hadj, Hval. symmetry in Hadj.
  apply getDegreeAdjustment_from_guard in Hadj. rewrite Hval. clear Hval Ha.
  unfold guard in Hadj. unfold DegreeOfSuccess.in_range in Hrange.
  unfold adjustDegreeOfSuccess, DegreeOfSuccess.CRITICAL_FAILURE,
    DegreeOfSuccess.CRITICAL_SUCCESS in *.
  destruct a; simpl in *;
    repeat case_bool_decide; simpl in Hadj; try discriminate; try congruence;
    (split; [intros; try discriminate; lia|]);
    (split; [intros; try discriminate; lia|]);
    (split; [lia|]); intros Heq; try lia; [right|left]; split; (lia || reflexivity).
Qed.

Lemma applied_adjustment_moves_degree_witness :
  (DegreeAdjustment.INCREASE = DegreeAdjustment.INCREASE → 2 = 1 + 1)%Z
  ∧ (DegreeAdjustment.INCREASE = DegreeAdjustment.LOWER → 2 = 1 - 1)%Z
  ∧ (1 - 2 ≤ 2 ≤ 1 + 2)%Z
  ∧ (2%Z = 1%Z →
       (1%Z = DegreeOfSuccess.CRITICAL_SUCCESS
        ∧ DegreeAdjustment.INCREASE = DegreeAdjustment.INCREASE_BY_TWO)
       ∨ (1%Z = DegreeOfSuccess.CRITICAL_FAILURE
          ∧ DegreeAdjustment.INCREASE = DegreeAdjustment.LOWER_BY_TWO)).
Proof.
  refine (applied_adjustment_moves_degree
            (λ _, nan) (λ _ _, DegreeOfSuccess.FAILURE)
            {| terms := [JS.Number 12%float]; totalModifier := JS.Undefined |}
            {| label := None; modifiers := Some {[ "failure" := "one-degree-better" ]};
               scope := None; value := JS.Number 15%float; visibility := None |}
            {| Outcome.unadjusted := 1; Outcome.value := 2;
               Outcome.degreeAdjustment := Some DegreeAdjustment.INCREASE |}
            DegreeAdjustment.INCREASE _ _ _).
  - vm_compute. reflexivity.
  - vm_compute. split; discriminate.
  - reflexivity.
Defined.

(** X6: the array [DegreeOfSuccessText] and the table [PREFIXES] agree: the
    text at index [d] is the key whose prefix is [d], and a key other than
    [all] that has a prefix stands at that index of the array. *)
Theorem text_and_prefixes_agree :
  (∀ n key, DegreeOfSuccessText !! n = Some key → PREFIXES !! key = Some (Z.of_nat n))
  ∧ (∀ key d, PREFIXES !! key = Some d → key ≠ "all" →
       (0 ≤ d)%Z ∧ DegreeOfSuccessText !! Z.to_nat d = Some key).
Proof.
  split.
  - intros n key Hn. apply text_lookup in Hn as [[-> ->]|[[-> ->]|[[-> ->]|[-> ->]]]];
      reflexivity.
  - intros key d Hd Hne. unfold PREFIXES in Hd.
    repeat (apply lookup_insert_Some in Hd as [[<- <-]|[_ Hd]];
            [first [contradiction | split; [discriminate|reflexivity]]|]).
    apply lookup_singleton_Some in Hd as [<- <-]. split; [discriminate|reflexivity].
Qed.

Lemma text_and_prefixes_agree_witness :
  PREFIXES !! "success" = Some (Z.of_nat 2).
Proof. apply (proj1 text_and_prefixes_agree 2%nat "success"). reflexivity. Defined.

(** X16: an entry under [all] that passes the guard decides the outcome,
    whatever the map holds under the keys of the four degrees. *)
Theorem all_entry_overrides v m s :
  m !! "all" = Some s → s ≠ "" → guard v (ADJUSTMENTS !! s) = true →
  getDegreeAdjustment v m = ADJUSTMENTS !! s
  ∧ ∀ m', m' !! "all" = Some s → getDegreeAdjustment v m' = getDegreeAdjustment v m.
Proof.
  intros Hs Hne Hguard. split; [apply getDegreeAdjustment_all; assumption|].
  intros m' Hs'. rewrite !(getDegreeAdjustment_all _ _ s) by assumption. reflexivity.
Qed.

Lemma all_entry_overrides_witness :
  getDegreeAdjustment DegreeOfSuccess.SUCCESS
    {[ "all" := "one-degree-worse"; "success" := "two-degrees-better" ]}
  = Some DegreeAdjustment.LOWER.
Proof.
  refine (proj1 (all_entry_overrides DegreeOfSuccess.SUCCESS
                   {[ "all" := "one-degree-worse"; "success" := "two-degrees-better" ]}
                   "one-degree-worse" _ _ _)); [reflexivity|discriminate|reflexivity].
Defined.

(** X17: for a map whose direction strings are all among the four keys of
    [ADJUSTMENTS], as the type [CheckDCModifiers] demands, the selector
    returns [undefined] exactly when no key is present, passes the guard
    and matches. *)
Theorem typed_map_undefined_iff_no_candidate v (m : CheckDCModifiers) :
  (∀ key s, m !! key = Some s → is_Some (ADJUSTMENTS !! s)) →
  getDegreeAdjustment v m = None ↔ Forall (λ key, ¬ candidate v m key) priority.
Proof.
  intros Htyped. rewrite getDegreeAdjustment_selected. unfold selected, selected_key. split.
  - intros Hnone. apply (head_filter_None (candidate v m) priority).
    destruct (head (filter (candidate v m) priority)) as [key|] eqn:Hhead; [|reflexivity].
    exfalso. simpl in Hnone.
    apply head_filter_Some in Hhead as (_ & _ & _ & Hc & _).
    destruct Hc as [[s Hd] _]. unfold resolved in Hnone. rewrite Hd in Hnone. simpl in Hnone.
    apply direction_Some in Hd as [Hs _].
    destruct (Htyped key s Hs) as [a Ha]. congruence.
  - intros Hall. apply (head_filter_None (candidate v m) priority) in Hall.
    rewrite Hall. reflexivity.
Qed.

Lemma typed_map_undefined_iff_no_candidate_witness :
  getDegreeAdjustment DegreeOfSuccess.CRITICAL_SUCCESS {[ "all" := "one-degree-better" ]} = None
  ↔ Forall (λ key, ¬ candidate DegreeOfSuccess.CRITICAL_SUCCESS
                       {[ "all" := "one-degree-better" ]} key) priority.
Proof.
  apply typed_map_undefined_iff_no_candidate. intros key s Hs.
  apply lookup_singleton_Some in Hs as [_ <-]. eexists. reflexivity.
Defined.

End CheckDegreeMore.

(** ** More of [getData] *)

Module DamageDialogView.
Import Modifiers DamageDialog.

(** [hasVisibleModifiers] of [getData]: [modifiers.filter((m) => m.show).length > 0]. *)
Definition hasVisibleModifiers (this : DamageModifierDialog) : bool :=
  bool_decide (0 < length (filter (λ md, ModifierData.show md = true) (getData this))).

End DamageDialogView.

(** * Further properties of the damage dialog *)

Module DialogMore.
Import Modifiers DamageDialog DamageDialogView StackingFacts DialogFacts.

(** The events that the modifiers, respectively the dice, react to. *)
Definition on_modifiers (ev : Event) : Prop :=
  match ev with
  | CheckboxClick (Some _) _ _ | AddModifierClick _ => True
  | _ => False
  end.

Definition on_dice (ev : Event) : Prop :=
  match ev with
  | CheckboxClick None (Some _) _ | AddDiceClick _ => True
  | _ => False
  end.

#[global] Instance on_modifiers_dec ev : Decision (on_modifiers ev).
Proof. destruct ev as [[i|] [j|] c|m|d|]; simpl; apply _. Defined.

#[global] Instance on_dice_dec ev : Decision (on_dice ev).
Proof. destruct ev as [[i|] [j|] c|m|d|]; simpl; apply _. Defined.

Lemma dispatch_isCritical R this ev : isCritical (dispatch R this ev) = isCritical this.
Proof.
  destruct ev as [[i|] [j|] checked|m|d|]; unfold dispatch; simpl;
    unfold onCheckboxClick, onAddModifierClick;
    repeat (case_match || case_bool_decide); simplify_eq; reflexivity.
Qed.

Lemma run_isCritical R events :
  ∀ this, isCritical (run R this events) = isCritical this.
Proof.
  induction events as [|ev events IH]; intros this; [reflexivity|].
  simpl. rewrite IH. apply dispatch_isCritical.
Qed.

Lemma length_pos_elem_of {A} (l : list A) : 0 < length l ↔ ∃ x, x ∈ l.
Proof.
  destruct l as [|x l]; simpl.
  - split; [lia|]. intros [x Hx]. inversion Hx.
  - split; [|lia]. intros _. exists x. left.
Qed.

(** X7: whether a modifier is shown is fixed by the outcome that the dialog
    was constructed for: for a critical success every modifier is shown,
    otherwise exactly those that are not flagged [critical]; and
    [hasVisibleModifiers] holds exactly when some modifier is shown. No
    listener changes this. *)
Theorem show_follows_outcome (R : list ModifierPF2e → list ModifierPF2e) params events :
  (∀ i m,
     modifiers (run R (constructor params) events) !! i = Some m →
     ∃ md, getData (run R (constructor params) events) !! i = Some md
       ∧ ModifierData.show md
         = bool_decide (outcome params = Some "criticalSuccess")
           || negb (bool_decide (critical m = Some true)))
  ∧ (hasVisibleModifiers (run R (constructor params) events) = true ↔
     ∃ m, m ∈ modifiers (run R (constructor params) events)
       ∧ (outcome params = Some "criticalSuccess" ∨ critical m ≠ Some true)).
Proof.
  set (this := run R (constructor params) events).
  assert (isCritical this = bool_decide (outcome params = Some "criticalSuccess")) as Hcrit
    by (unfold this; rewrite run_isCritical; reflexivity).
  assert (∀ m : ModifierPF2e,
    negb (default false (critical m)) = negb (bool_decide (critical m = Some true))) as Hflag
    by (intros m; destruct (critical m) as [[|]|]; reflexivity).
  split.
  - intros i m Hm. unfold getData. rewrite list_lookup_imap, Hm. simpl.
    eexists. split; [reflexivity|]. simpl. rewrite Hcrit, Hflag. reflexivity.
  - unfold hasVisibleModifiers. rewrite bool_decide_eq_true, length_pos_elem_of. split.
    + intros (md & Hmd). apply list_elem_of_filter in Hmd as [Hshow Hmd].
      apply elem_of_lookup_imap in Hmd as (i & m & -> & Hm). simpl in Hshow.
      exists m. split; [eapply list_elem_of_lookup_2, Hm|].
      rewrite Hcrit, Hflag in Hshow. apply orb_true_iff in Hshow as [H|H].
      * left. apply bool_decide_eq_true in H. exact H.
      * right. apply negb_true_iff, bool_decide_eq_false in H. exact H.
    + intros (m & Hm & Hshown). apply list_elem_of_lookup in Hm as [i Hi].
      eexists. apply list_elem_of_filter. split; [|eapply elem_of_lookup_imap_2, Hi].
      simpl. rewrite Hcrit, Hflag. apply orb_true_iff. destruct Hshown as [H|H].
      * left. apply bool_decide_eq_true. exact H.
      * right. apply negb_true_iff, bool_decide_eq_false. exact H.
Qed.

Lemma show_follows_outcome_witness :
  ∃ md, getData
      (run applyStackingRules
         (constructor
            {| formula_modifiers :=
                 [{| label := "deadly"; modifier := 3; kind := untyped; type := None;
                     enabled := true; ignored := false; critical := Some true;
                     hideIfDisabled := false; damageType := None;
                     damageCategory := None; category := None |}];
               formula_dice := []; outcome := Some "success" |})
         [RollClick]) !! 0 = Some md
    ∧ ModifierData.show md = false.
Proof.
  refine (proj1 (show_follows_outcome applyStackingRules
                   {| formula_modifiers :=
                        [{| label := "deadly"; modifier := 3; kind := untyped; type := None;
                            enabled := true; ignored := false; critical := Some true;
                            hideIfDisabled := false; damageType := None;
                            damageCategory := None; category := None |}];
                      formula_dice := []; outcome := Some "success" |}
                   [RollClick]) 0
            {| label := "deadly"; modifier := 3; kind := untyped; type := None;
               enabled := true; ignored := false; critical := Some true;
               hideIfDisabled := false; damageType := None;
               damageCategory := None; category := None |} _).
  reflexivity.
Defined.

(** X8: [isRolled], the value that closing the dialog resolves with, is
    true after a sequence of events exactly when it was true before or the
    roll button was clicked; no other listener sets or clears it. *)
Theorem isRolled_iff_roll_clicked (R : list ModifierPF2e → list ModifierPF2e) events :
  ∀ this,
    isRolled (run R this events) = true ↔ isRolled this = true ∨ RollClick ∈ events.
Proof.
  induction events as [|ev events IH]; intros this; simpl.
  - split; [auto|]. intros [H|H]; [exact H|inversion H].
  - rewrite IH, elem_of_cons.
    assert (isRolled (dispatch R this ev) = true ↔ isRolled this = true ∨ RollClick = ev) as ->.
    { destruct ev as [[i|] [j|] checked|m|d|]; unfold dispatch; simpl;
        unfold onCheckboxClick, onAddModifierClick;
        repeat (case_match || case_bool_decide); simplify_eq; simpl;
        split; auto; intros [Hr|Hr]; auto; discriminate. }
    tauto.
Qed.

(** X9: a checkbox whose index is outside its array leaves the dialog as it
    was (the listener throws before it writes anything); with an index for a
    modifier that is out of range, a valid index for a die is not used
    either. *)
Theorem stale_checkbox_changes_nothing (R : list ModifierPF2e → list ModifierPF2e) this checked :
  (∀ i dieIndex, length (modifiers this) ≤ i →
     dispatch R this (CheckboxClick (Some i) dieIndex checked) = this)
  ∧ (∀ j, length (dice this) ≤ j →
       dispatch R this (CheckboxClick None (Some j) checked) = this)
  ∧ dispatch R this (CheckboxClick None None checked) = this.
Proof.
  split; [|split].
  - intros i dieIndex Hi. unfold dispatch, onCheckboxClick.
    rewrite (lookup_ge_None_2 _ _ Hi). reflexivity.
  - intros j Hj. unfold dispatch, onCheckboxClick.
    rewrite (lookup_ge_None_2 _ _ Hj). reflexivity.
  - reflexivity.
Qed.

Lemma stale_checkbox_changes_nothing_witness :
  dispatch applyStackingRules
    (constructor {| formula_modifiers := Scenarios.two_circumstance_bonuses;
                    formula_dice := [{| DamageDice.label := "d6"; DamageDice.enabled := true;
                                        DamageDice.ignored := false |}];
                    outcome := None |})
    (CheckboxClick (Some 2) (Some 0) false)
  = constructor {| formula_modifiers := Scenarios.two_circumstance_bonuses;
                   formula_dice := [{| DamageDice.label := "d6"; DamageDice.enabled := true;
                                       DamageDice.ignored := false |}];
                   outcome := None |}.
Proof.
  apply (proj1 (stale_checkbox_changes_nothing applyStackingRules _ false) 2 (Some 0)).
  simpl. lia.
Defined.

(** The modifiers after an event depend on the modifiers before it only,
    and the dice on the dice. *)
Lemma dispatch_modifiers_congr R a b ev :
  modifiers a = modifiers b → modifiers (dispatch R a ev) = modifiers (dispatch R b ev).
Proof.
  intros Hab.
  destruct ev as [[i|] [j|] checked|m|d|]; unfold dispatch; simpl;
    unfold onCheckboxClick, onAddModifierClick; rewrite <- ?Hab;
    repeat (case_match || case_bool_decide); simplify_eq; simpl; congruence.
Qed.

Lemma dispatch_dice_congr R a b ev :
  dice a = dice b → dice (dispatch R a ev) = dice (dispatch R b ev).
Proof.
  intros Hab.
  destruct ev as [[i|] [j|] checked|m|d|]; unfold dispatch; simpl;
    unfold onCheckboxClick, onAddModifierClick, onAddDiceClick; rewrite <- ?Hab;
    repeat (case_match || case_bool_decide); simplify_eq; simpl; congruence.
Qed.

Lemma dispatch_modifiers_other R this ev :
  ¬ on_modifiers ev → modifiers (dispatch R this ev) = modifiers this.
Proof.
  destruct ev as [[i|] [j|] checked|m|d|]; simpl; try tauto; intros _;
    unfold dispatch; simpl; unfold onCheckboxClick;
    repeat case_match; simplify_eq; reflexivity.
Qed.

Lemma dispatch_dice_other R this ev :
  ¬ on_dice ev → dice (dispatch R this ev) = dice this.
Proof.
  destruct ev as [[i|] [j|] checked|m|d|]; simpl; try tauto; intros _;
    unfold dispatch; simpl; unfold onCheckboxClick, onAddModifierClick;
    repeat (case_match || case_bool_decide); simplify_eq; reflexivity.
Qed.

Lemma run_modifiers_filter R events :
  ∀ a b, modifiers a = modifiers b →
    modifiers (run R a events) = modifiers (run R b (filter on_modifiers events)).
Proof.
  induction events as [|ev events IH]; intros a b Hab; [exact Hab|].
  rewrite filter_cons. destruct (decide (on_modifiers ev)) as [Hev|Hev]; simpl.
  - apply IH, dispatch_modifiers_congr, Hab.
  - apply IH. rewrite dispatch_modifiers_other by exact Hev. exact Hab.
Qed.

Lemma run_dice_filter R events :
  ∀ a b, dice a = dice b →
    dice (run R a events) = dice (run R b (filter on_dice events)).
Proof.
  induction events as [|ev events IH]; intros a b Hab; [exact Hab|].
  rewrite filter_cons. destruct (decide (on_dice ev)) as [Hev|Hev]; simpl.
  - apply IH, dispatch_dice_congr, Hab.
  - apply IH. rewrite dispatch_dice_other by exact Hev. exact Hab.
Qed.

(** X10: modifiers and dice do not interfere: the modifiers after a
    sequence of events are those after its modifier events alone (checkbox
    clicks with a modifier index, added modifiers), and the dice those after
    its dice events alone. *)
Theorem modifiers_and_dice_independent (R : list ModifierPF2e → list ModifierPF2e)
    this events :
  modifiers (run R this events) = modifiers (run R this (filter on_modifiers events))
  ∧ dice (run R this events) = dice (run R this (filter on_dice events)).
Proof. split; [apply run_modifiers_filter|apply run_dice_filter]; reflexivity. Qed.

(** ** What the modifier listeners write *)

(** Two states of one object that differ at most in [enabled] and
    [ignored], the two fields that the dialog writes. *)
Definition flags_only (before after : ModifierPF2e) : Prop :=
  after = set_enabled (enabled after) (set_ignored (ignored after) before).

Lemma flags_only_refl m : flags_only m m.
Proof. destruct m. reflexivity. Qed.

Lemma flags_only_trans a b c : flags_only a b → flags_only b c → flags_only a c.
Proof.
  unfold flags_only. destruct a, b, c. cbv. intros [= -> -> -> -> -> -> -> -> ->].
  intros [= -> -> -> -> -> -> -> -> ->]. reflexivity.
Qed.

Lemma enabled_only_flags_only a b : enabled_only a b → flags_only a b.
Proof. unfold enabled_only, flags_only. intros ->. destruct a. reflexivity. Qed.

Lemma set_ignored_flags_only c m m' : enabled_only (set_ignored c m) m' → flags_only m m'.
Proof. unfold enabled_only, flags_only. intros ->. reflexivity. Qed.

Lemma dispatch_checkbox R this i m dieIndex checked :
  modifiers this !! i = Some m →
  dispatch R this (CheckboxClick (Some i) dieIndex checked)
  = with_modifiers
      (private_applyStackingRules R (<[i := set_ignored (negb checked) m]> (modifiers this)))
      this.
Proof. intros Hm. unfold dispatch, onCheckboxClick. rewrite Hm. reflexivity. Qed.

Lemma dispatch_add R this m :
  modifier m ≠ 0%Z →
  dispatch R this (AddModifierClick m)
  = with_modifiers (private_applyStackingRules R (modifiers this ++ [m])) this.
Proof.
  intros Hm. unfold dispatch, onAddModifierClick.
  rewrite bool_decide_eq_false_2 by exact Hm. reflexivity.
Qed.

Lemma filter_insert_irrelevant {A} (Q : A → Prop) `{!∀ x, Decision (Q x)} (l : list A) :
  ∀ i x y, l !! i = Some x → ¬ Q x → ¬ Q y → filter Q (<[i := y]> l) = filter Q l.
Proof.
  induction l as [|a l IH]; intros i x y Hi Hx Hy; [discriminate|].
  destruct i as [|i]; simpl in *.
  - injection Hi as ->. rewrite !filter_cons, !decide_False by assumption. reflexivity.
  - rewrite !filter_cons. destruct (decide (Q a)); rewrite (IH i x y) by assumption;
      reflexivity.
Qed.

Lemma erase_enabled_only l l' : Forall2 enabled_only l l' → erase <$> l = erase <$> l'.
Proof.
  induction 1 as [|a b l l' Hab _ IH]; [reflexivity|].
  simpl. f_equal; [|exact IH]. unfold enabled_only in Hab. rewrite Hab. reflexivity.
Qed.

Lemma erase_filter (Q : ModifierPF2e → Prop) `{!∀ x, Decision (Q x)} :
  (∀ x, Q (erase x) ↔ Q x) →
  ∀ l l' : list ModifierPF2e,
    erase <$> l = erase <$> l' → erase <$> filter Q l = erase <$> filter Q l'.
Proof.
  intros HQ. induction l as [|a l IH]; intros [|b l'] Heq; try discriminate; [reflexivity|].
  pose proof (f_equal head Heq) as Hab. simpl in Hab. apply (inj Some) in Hab.
  apply (f_equal tail) in Heq. simpl in Heq. specialize (IH l' Heq).
  assert (Q a ↔ Q b) as Hq by (rewrite <- (HQ a), <- (HQ b), Hab; reflexivity).
  rewrite !filter_cons. destruct (decide (Q a)) as [Ha|Ha].
  - rewrite decide_True by tauto. simpl. rewrite Hab. f_equal. exact IH.
  - rewrite decide_False by tauto. exact IH.
Qed.

(** A list is determined by the categories of its members and its two
    partitions. *)
Lemma list_eq_by_partition (l l' : list ModifierPF2e) :
  category <$> l = category <$> l' →
  filter persistent l = filter persistent l' →
  filter (λ m, ¬ persistent m) l = filter (λ m, ¬ persistent m) l' →
  l = l'.
Proof.
  revert l'. induction l as [|a l IH]; intros [|b l'] Hc Hp Hn; try discriminate;
    [reflexivity|].
  pose proof (f_equal head Hc) as Hab. simpl in Hab. apply (inj Some) in Hab.
  apply (f_equal tail) in Hc. simpl in Hc.
  assert (persistent a ↔ persistent b) as Hq by (unfold persistent; rewrite Hab; tauto).
  rewrite !filter_cons in Hp, Hn. destruct (decide (persistent a)) as [Ha|Ha].
  - rewrite (decide_True (P := persistent b)) in Hp by tauto.
    rewrite (decide_False (P := ¬ persistent a)), (decide_False (P := ¬ persistent b)) in Hn
      by tauto.
    injection Hp as -> Hp. f_equal. apply IH; assumption.
  - rewrite (decide_False (P := persistent b)) in Hp by tauto.
    rewrite (decide_True (P := ¬ persistent a)), (decide_True (P := ¬ persistent b)) in Hn
      by tauto.
    injection Hn as -> Hn. f_equal. apply IH; assumption.
Qed.

Section WithResolver.
Variable R : list ModifierPF2e → list ModifierPF2e.
(** The resolver writes [enabled] and nothing else. *)
Hypothesis R_frame : ∀ ms, Forall2 enabled_only ms (R ms).

Lemma checkbox_frame this i m dieIndex checked :
  modifiers this !! i = Some m →
  Forall2 enabled_only (<[i := set_ignored (negb checked) m]> (modifiers this))
    (modifiers (dispatch R this (CheckboxClick (Some i) dieIndex checked))).
Proof.
  intros Hm. rewrite (dispatch_checkbox _ _ _ _ _ _ Hm). simpl.
  apply private_frame, R_frame.
Qed.

Lemma dispatch_flags_only this ev i m :
  modifiers this !! i = Some m →
  ∃ m', modifiers (dispatch R this ev) !! i = Some m' ∧ flags_only m m'.
Proof.
  intros Hm.
  assert (∃ m', modifiers this !! i = Some m' ∧ flags_only m m') as Hsame
    by (exists m; split; [exact Hm|apply flags_only_refl]).
  destruct ev as [[i0|] dieIndex checked|m0|d|]; try exact Hsame.
  - destruct (modifiers this !! i0) as [m1|] eqn:Hi0;
      [|unfold dispatch, onCheckboxClick; rewrite Hi0; exact Hsame].
    pose proof (checkbox_frame this i0 m1 dieIndex checked Hi0) as Hframe.
    destruct (decide (i = i0)) as [->|Hne].
    + assert (<[i0 := set_ignored (negb checked) m1]> (modifiers this) !! i0
              = Some (set_ignored (negb checked) m1)) as Hi
        by (apply list_lookup_insert_eq; eapply lookup_lt_Some, Hi0).
      destruct (Forall2_lookup_l _ _ _ _ _ Hframe Hi) as (m' & Hm' & Hmm').
      exists m'. split; [exact Hm'|]. replace m with m1 by congruence.
      eapply set_ignored_flags_only, Hmm'.
    + assert (<[i0 := set_ignored (negb checked) m1]> (modifiers this) !! i = Some m) as Hi
        by (rewrite list_lookup_insert_ne by congruence; exact Hm).
      destruct (Forall2_lookup_l _ _ _ _ _ Hframe Hi) as (m' & Hm' & Hmm').
      exists m'. split; [exact Hm'|apply enabled_only_flags_only, Hmm'].
  - unfold dispatch, onCheckboxClick. destruct dieIndex as [j|]; [|exact Hsame].
    destruct (dice this !! j); exact Hsame.
  - destruct (decide (modifier m0 = 0%Z)) as [Hz|Hz].
    + unfold dispatch, onAddModifierClick. rewrite bool_decide_eq_true_2 by exact Hz.
      exact Hsame.
    + rewrite (dispatch_add _ _ _ Hz). simpl.
      pose proof (private_frame R R_frame (modifiers this ++ [m0])) as Hframe.
      assert ((modifiers this ++ [m0]) !! i = Some m) as Hi
        by (apply lookup_app_l_Some, Hm).
      destruct (Forall2_lookup_l _ _ _ _ _ Hframe Hi) as (m' & Hm' & Hmm').
      exists m'. split; [exact Hm'|apply enabled_only_flags_only, Hmm'].
Qed.

(** X11: the listeners write only [enabled] and [ignored] of a modifier:
    whatever the user does, each modifier stays at its index and keeps its
    label, value, kind, type, category and every other field. *)
Theorem listeners_write_flags_only events :
  ∀ this i m,
    modifiers this !! i = Some m →
    ∃ m', modifiers (run R this events) !! i = Some m' ∧ flags_only m m'.
Proof.
  induction events as [|ev events IH]; intros this i m Hm; simpl.
  - exists m. split; [exact Hm|apply flags_only_refl].
  - destruct (dispatch_flags_only this ev i m Hm) as (m1 & Hm1 & H1).
    destruct (IH _ i m1 Hm1) as (m' & Hm' & H').
    exists m'. split; [exact Hm'|]. eapply flags_only_trans; eauto.
Qed.

(** X12: clicking the checkbox of a modifier sets [ignored] of that
    modifier to the negation of [checked]; of every modifier, that one
    included, at most [enabled] changes besides, and none is added or
    removed. *)
Theorem checkbox_writes_one_ignored_flag this i m dieIndex checked :
  modifiers this !! i = Some m →
  length (modifiers (dispatch R this (CheckboxClick (Some i) dieIndex checked)))
    = length (modifiers this)
  ∧ (∃ m', modifiers (dispatch R this (CheckboxClick (Some i) dieIndex checked)) !! i = Some m'
       ∧ ignored m' = negb checked
       ∧ enabled_only (set_ignored (negb checked) m) m')
  ∧ (∀ j mj, j ≠ i → modifiers this !! j = Some mj →
       ∃ mj', modifiers (dispatch R this (CheckboxClick (Some i) dieIndex checked)) !! j
              = Some mj'
         ∧ enabled_only mj mj').
Proof.
  intros Hm. pose proof (checkbox_frame this i m dieIndex checked Hm) as Hframe.
  split; [|split].
  - rewrite <- (Forall2_length _ _ _ Hframe). apply length_insert.
  - assert (<[i := set_ignored (negb checked) m]> (modifiers this) !! i
            = Some (set_ignored (negb checked) m)) as Hi
      by (apply list_lookup_insert_eq; eapply lookup_lt_Some, Hm).
    destruct (Forall2_lookup_l _ _ _ _ _ Hframe Hi) as (m' & Hm' & Hmm').
    exists m'. split; [exact Hm'|]. split; [|exact Hmm'].
    unfold enabled_only in Hmm'. rewrite Hmm'. reflexivity.
  - intros j mj Hne Hj.
    assert (<[i := set_ignored (negb checked) m]> (modifiers this) !! j = Some mj) as Hi
      by (rewrite list_lookup_insert_ne by congruence; exact Hj).
    destruct (Forall2_lookup_l _ _ _ _ _ Hframe Hi) as (m' & Hm' & Hmm'). eauto.
Qed.

(** X13: the add-modifier button with a value of zero changes nothing; with
    another value it appends the new modifier after the existing ones,
    which keep their places, and of all of them at most [enabled] differs
    afterwards. *)
Theorem add_modifier_appends this m :
  (modifier m = 0%Z → dispatch R this (AddModifierClick m) = this)
  ∧ (modifier m ≠ 0%Z →
       Forall2 enabled_only (modifiers this ++ [m])
         (modifiers (dispatch R this (AddModifierClick m)))
       ∧ dice (dispatch R this (AddModifierClick m)) = dice this
       ∧ originallyEnabled (dispatch R this (AddModifierClick m)) = originallyEnabled this).
Proof.
  split.
  - intros Hz. unfold dispatch, onAddModifierClick.
    rewrite bool_decide_eq_true_2 by exact Hz. reflexivity.
  - intros Hz. rewrite (dispatch_add _ _ _ Hz). simpl.
    split; [apply private_frame, R_frame|]. split; reflexivity.
Qed.

(** X15: a click on the checkbox of a persistent modifier leaves the other
    modifiers as the resolver leaves them without the click, and a click on
    another modifier leaves the persistent ones so. *)
Theorem toggle_stays_in_partition this i m dieIndex checked :
  modifiers this !! i = Some m →
  (persistent m →
     filter (λ x, ¬ persistent x)
       (modifiers (dispatch R this (CheckboxClick (Some i) dieIndex checked)))
     = R (filter (λ x, ¬ persistent x) (modifiers this)))
  ∧ (¬ persistent m →
       filter persistent
         (modifiers (dispatch R this (CheckboxClick (Some i) dieIndex checked)))
       = R (filter persistent (modifiers this))).
Proof.
  intros Hm. rewrite (dispatch_checkbox _ _ _ _ _ _ Hm). simpl. split; intros Hp.
  - rewrite (private_filter_ordinary R R_frame).
    rewrite (filter_insert_irrelevant _ _ i m); [reflexivity|exact Hm|tauto|].
    unfold persistent in *. simpl. tauto.
  - rewrite (private_filter_persistent R R_frame).
    rewrite (filter_insert_irrelevant _ _ i m); [reflexivity|exact Hm|exact Hp|].
    unfold persistent in *. simpl. exact Hp.
Qed.

End WithResolver.

Section RoundTrip.
Variable R : list ModifierPF2e → list ModifierPF2e.
(** The resolver writes [enabled] and nothing else, and what it writes does
    not depend on the [enabled] flags it finds. *)
Hypothesis R_frame : ∀ ms, Forall2 enabled_only ms (R ms).
Hypothesis R_erase : ∀ ms ms', erase <$> ms = erase <$> ms' → R ms = R ms'.

Lemma category_erase (l l' : list ModifierPF2e) :
  erase <$> l = erase <$> l' → category <$> l = category <$> l'.
Proof.
  intros Heq. apply (f_equal (fmap category)) in Heq.
  rewrite <- (list_fmap_compose erase category l),
    <- (list_fmap_compose erase category l') in Heq.
  exact Heq.
Qed.

(** [#applyStackingRules] does not read the [enabled] flags either. *)
Lemma private_erase ms ms' :
  erase <$> ms = erase <$> ms' →
  private_applyStackingRules R ms = private_applyStackingRules R ms'.
Proof.
  intros Heq. apply list_eq_by_partition.
  - rewrite <- (category_erase _ _ (erase_enabled_only _ _ (private_frame R R_frame ms))).
    rewrite <- (category_erase _ _ (erase_enabled_only _ _ (private_frame R R_frame ms'))).
    apply category_erase, Heq.
  - rewrite !(private_filter_persistent R R_frame). apply R_erase.
    apply (erase_filter persistent); [reflexivity|exact Heq].
  - rewrite !(private_filter_ordinary R R_frame). apply R_erase.
    apply (erase_filter (λ m, ¬ persistent m)); [reflexivity|exact Heq].
Qed.

(** X14: clearing the checkbox of a modifier that was not ignored and
    setting it again leaves the modifiers as [#applyStackingRules] leaves
    the list the user started from; if that list was already resolved, the
    two clicks bring it back unchanged. *)
Theorem uncheck_then_check_restores this i m dieIndex dieIndex' :
  modifiers this !! i = Some m →
  ignored m = false →
  modifiers
    (dispatch R (dispatch R this (CheckboxClick (Some i) dieIndex false))
       (CheckboxClick (Some i) dieIndex' true))
  = private_applyStackingRules R (modifiers this)
  ∧ (private_applyStackingRules R (modifiers this) = modifiers this →
     modifiers
       (dispatch R (dispatch R this (CheckboxClick (Some i) dieIndex false))
          (CheckboxClick (Some i) dieIndex' true))
     = modifiers this).
Proof.
  intros Hm Hign.
  assert (modifiers
            (dispatch R (dispatch R this (CheckboxClick (Some i) dieIndex false))
               (CheckboxClick (Some i) dieIndex' true))
          = private_applyStackingRules R (modifiers this)) as Hround.
  { pose proof (checkbox_frame R R_frame this i m dieIndex false Hm) as Hframe.
    set (this1 := dispatch R this (CheckboxClick (Some i) dieIndex false)) in *.
    assert (<[i := set_ignored (negb false) m]> (modifiers this) !! i
            = Some (set_ignored true m)) as Hi
      by (apply list_lookup_insert_eq; eapply lookup_lt_Some, Hm).
    destruct (Forall2_lookup_l _ _ _ _ _ Hframe Hi) as (m1 & Hm1 & Hmm1).
    rewrite (dispatch_checkbox _ _ _ _ _ _ Hm1). simpl.
    apply private_erase. rewrite list_fmap_insert.
    rewrite <- (erase_enabled_only _ _ Hframe), list_fmap_insert, list_insert_insert_eq.
    apply list_insert_id. rewrite list_lookup_fmap, Hm. simpl. f_equal.
    unfold enabled_only in Hmm1. rewrite Hmm1. destruct m. simpl in *. subst. reflexivity. }
  split; [exact Hround|]. intros Hres. rewrite Hround. exact Hres.
Qed.

End RoundTrip.

(** The resolver of the spec does not read [enabled]. *)
Lemma applyStackingRules_from_erase rest :
  ∀ rest' earlier earlier',
    erase <$> earlier = erase <$> earlier' → erase <$> rest = erase <$> rest' →
    applyStackingRules_from earlier rest = applyStackingRules_from earlier' rest'.
Proof.
  induction rest as [|m rest IH]; intros [|m' rest'] earlier earlier' He Hr;
    try discriminate; [reflexivity|].
  rewrite !fmap_cons in Hr.
  assert (erase m = erase m') as Hm by exact (f_equal (λ l, default (erase m) (head l)) Hr).
  assert (erase <$> rest = erase <$> rest') as Hr' by exact (f_equal tail Hr).
  clear Hr. rename Hr' into Hr. simpl. f_equal.
  - rewrite <- (stacks_erase earlier), <- (stacks_erase earlier'), He, Hr, Hm.
    destruct m, m'. unfold erase, set_enabled in Hm. simpl in *.
    injection Hm as -> -> -> -> -> -> -> -> -> ->. reflexivity.
  - apply IH; [|exact Hr]. rewrite !fmap_app, He. simpl. rewrite Hm. reflexivity.
Qed.

Lemma applyStackingRules_erase ms ms' :
  erase <$> ms = erase <$> ms' → applyStackingRules ms = applyStackingRules ms'.
Proof. apply applyStackingRules_from_erase. reflexivity. Qed.

Lemma listeners_write_flags_only_witness :
  ∃ m', modifiers
          (run applyStackingRules
             (constructor {| formula_modifiers := Scenarios.two_circumstance_bonuses;
                             formula_dice := []; outcome := None |})
             [CheckboxClick (Some 1) None false;
              AddModifierClick (Scenarios.sample "c" 1 untyped None false None)]) !! 1
        = Some m'
    ∧ flags_only (Scenarios.sample "b" 4 bonus (Some "circumstance") false None) m'.
Proof.
  apply (listeners_write_flags_only applyStackingRules applyStackingRules_frame).
  reflexivity.
Defined.

Lemma checkbox_writes_one_ignored_flag_witness :
  enabled <$> modifiers
    (dispatch applyStackingRules
       (constructor {| formula_modifiers := Scenarios.two_circumstance_bonuses;
                       formula_dice := []; outcome := None |})
       (CheckboxClick (Some 1) None false))
  = [true; false]
  ∧ length (modifiers
      (dispatch applyStackingRules
         (constructor {| formula_modifiers := Scenarios.two_circumstance_bonuses;
                         formula_dice := []; outcome := None |})
         (CheckboxClick (Some 1) None false))) = 2.
Proof.
  split; [reflexivity|].
  apply (checkbox_writes_one_ignored_flag applyStackingRules applyStackingRules_frame
           (constructor {| formula_modifiers := Scenarios.two_circumstance_bonuses;
                           formula_dice := []; outcome := None |})
           1 (Scenarios.sample "b" 4 bonus (Some "circumstance") false None) None false).
  reflexivity.
Defined.

Lemma add_modifier_appends_witness :
  Forall2 enabled_only
    (Scenarios.two_circumstance_bonuses
       ++ [Scenarios.sample "c" 5 bonus (Some "circumstance") false None])
    (modifiers
       (dispatch applyStackingRules
          (constructor {| formula_modifiers := Scenarios.two_circumstance_bonuses;
                          formula_dice := []; outcome := None |})
          (AddModifierClick (Scenarios.sample "c" 5 bonus (Some "circumstance") false None)))).
Proof.
  apply (proj2 (add_modifier_appends applyStackingRules applyStackingRules_frame
                  (constructor {| formula_modifiers := Scenarios.two_circumstance_bonuses;
                                  formula_dice := []; outcome := None |})
                  (Scenarios.sample "c" 5 bonus (Some "circumstance") false None))).
  discriminate.
Defined.

Lemma toggle_stays_in_partition_witness :
  filter (λ x, ¬ persistent x)
    (modifiers
       (dispatch applyStackingRules
          (constructor {| formula_modifiers := Scenarios.two_partitions;
                          formula_dice := []; outcome := None |})
          (CheckboxClick (Some 0) None false)))
  = applyStackingRules (filter (λ x, ¬ persistent x) Scenarios.two_partitions).
Proof.
  apply (proj1 (toggle_stays_in_partition applyStackingRules applyStackingRules_frame
                  (constructor {| formula_modifiers := Scenarios.two_partitions;
                                  formula_dice := []; outcome := None |})
                  0 (Scenarios.sample "a" 4 bonus (Some "circumstance") false
                       (Some "persistent")) None false eq_refl)).
  reflexivity.
Defined.

Lemma uncheck_then_check_restores_witness :
  modifiers
    (dispatch applyStackingRules
       (dispatch applyStackingRules
          (constructor {| formula_modifiers := Scenarios.two_circumstance_bonuses;
                          formula_dice := []; outcome := None |})
          (CheckboxClick (Some 1) None false))
       (CheckboxClick (Some 1) None true))
  = private_applyStackingRules applyStackingRules Scenarios.two_circumstance_bonuses.
Proof.
  apply (uncheck_then_check_restores applyStackingRules applyStackingRules_frame
           applyStackingRules_erase
           (constructor {| formula_modifiers := Scenarios.two_circumstance_bonuses;
                           formula_dice := []; outcome := None |})
           1 (Scenarios.sample "b" 4 bonus (Some "circumstance") false None) None None);
    reflexivity.
Defined.

End DialogMore.
